(** * The wallet of siacore: owned outputs, tentative spends, transaction funding

    A shallow embedding of [siacore/wallet/wallet.go].  The wallet is a record
    of maps that every method mutates in place; here each method is a function
    from the wallet before the call to the wallet after it, together with the
    value the method returns.  A Go method can also stop in a run-time panic
    (a field read or written through a nil pointer); [result] keeps that
    outcome apart from a normal return. *)

From Stdlib Require Import ZArith NArith Lia.
From stdpp Require Import gmap strings list fin_maps fin_sets pretty sorting.

Open Scope N_scope.

#[local] Set Warnings "-clear-no-such-hyp".

(** ** The types of package consensus that the wallet uses *)

(** Modelled from the spec: [consensus.Currency] is declared outside the wallet
    package; the data model gives an output's value as a "non-negative integer
    currency amount". *)
Definition Currency := N.

(** [consensus.OutputID] and [consensus.CoinAddress] are hashes.  The wallet
    declares [ownedOutputs] and [spentOutputs] over [CoinAddress] and keys them
    by output identifiers, so both names stand for one representation. *)
Definition Hash := N.
Definition OutputID := Hash.
Definition CoinAddress := Hash.

Definition PublicKey := N.
Definition SecretKey := N.

Record SpendConditions := {
  NumSignatures : N;
  PublicKeys : list PublicKey
}.

Record Output := {
  Value : Currency;
  SpendHash : CoinAddress
}.

Record Input := {
  Input_OutputID : OutputID;
  Input_SpendConditions : SpendConditions
}.

Record Transaction := {
  Inputs : list Input;
  MinerFees : list Currency;
  Outputs : list Output
}.

Record Block := {
  Transactions : list Transaction
}.

(** The two derivations the wallet calls on consensus values:
    [t.OutputID(i)] and [sc.CoinAddress()].  Both are hashes computed by the
    consensus package. *)
Class Consensus := {
  Transaction_OutputID : Transaction -> nat -> OutputID;
  SpendConditions_CoinAddress : SpendConditions -> CoinAddress
}.

(** ** Wallet state *)

(** The field [transaction] of the source is a pointer to the caller's
    transaction; here it holds the transaction itself.  The model is of
    wallets in which no two sessions share one transaction: what a method
    appends to the transaction of one session is not seen through another. *)
Record openTransaction := {
  transaction : Transaction;
  inputs : list N
}.

Record spendableAddress := {
  spendConditions_of : SpendConditions;
  secretKey : SecretKey
}.

(** An element of [w.outputs]: a record reached through a pointer, whose field
    [output] is itself a pointer ([None] is nil). *)
Record knownOutput := {
  output : option Output
}.

(** The declared fields of [Wallet], followed by the two fields the methods
    use without a declaration: [w.outputs] and [w.spendConditions]. *)
Record Wallet := {
  balance : Currency;
  ownedOutputs : gset OutputID;
  spentOutputs : gset OutputID;
  spendableAddresses : gmap CoinAddress spendableAddress;
  transactionCounter : Z;
  transactions : gmap string openTransaction;
  outputs : gmap OutputID knownOutput;
  spendConditions : SpendConditions
}.

Definition set_balance (b : Currency) (w : Wallet) : Wallet :=
  {| balance := b; ownedOutputs := ownedOutputs w;
     spentOutputs := spentOutputs w;
     spendableAddresses := spendableAddresses w;
     transactionCounter := transactionCounter w;
     transactions := transactions w; outputs := outputs w;
     spendConditions := spendConditions w |}.

Definition set_ownedOutputs (s : gset OutputID) (w : Wallet) : Wallet :=
  {| balance := balance w; ownedOutputs := s;
     spentOutputs := spentOutputs w;
     spendableAddresses := spendableAddresses w;
     transactionCounter := transactionCounter w;
     transactions := transactions w; outputs := outputs w;
     spendConditions := spendConditions w |}.

Definition set_spentOutputs (s : gset OutputID) (w : Wallet) : Wallet :=
  {| balance := balance w; ownedOutputs := ownedOutputs w;
     spentOutputs := s;
     spendableAddresses := spendableAddresses w;
     transactionCounter := transactionCounter w;
     transactions := transactions w; outputs := outputs w;
     spendConditions := spendConditions w |}.

Definition set_spendableAddresses (m : gmap CoinAddress spendableAddress)
    (w : Wallet) : Wallet :=
  {| balance := balance w; ownedOutputs := ownedOutputs w;
     spentOutputs := spentOutputs w;
     spendableAddresses := m;
     transactionCounter := transactionCounter w;
     transactions := transactions w; outputs := outputs w;
     spendConditions := spendConditions w |}.

Definition set_transactionCounter (c : Z) (w : Wallet) : Wallet :=
  {| balance := balance w; ownedOutputs := ownedOutputs w;
     spentOutputs := spentOutputs w;
     spendableAddresses := spendableAddresses w;
     transactionCounter := c;
     transactions := transactions w; outputs := outputs w;
     spendConditions := spendConditions w |}.

Definition set_transactions (m : gmap string openTransaction)
    (w : Wallet) : Wallet :=
  {| balance := balance w; ownedOutputs := ownedOutputs w;
     spentOutputs := spentOutputs w;
     spendableAddresses := spendableAddresses w;
     transactionCounter := transactionCounter w;
     transactions := m; outputs := outputs w;
     spendConditions := spendConditions w |}.

Definition set_outputs (m : gmap OutputID knownOutput) (w : Wallet) : Wallet :=
  {| balance := balance w; ownedOutputs := ownedOutputs w;
     spentOutputs := spentOutputs w;
     spendableAddresses := spendableAddresses w;
     transactionCounter := transactionCounter w;
     transactions := transactions w; outputs := m;
     spendConditions := spendConditions w |}.

(** ** Outcomes of a method call *)

Inductive result (A : Type) : Type :=
  | Returned (a : A)
  | Panicked.
Arguments Returned {A} a.
Arguments Panicked {A}.

#[global] Instance result_bind : MBind result :=
  fun A B (k : A -> result B) (r : result A) =>
    match r with
    | Returned a => k a
    | Panicked => Panicked
    end.

#[global] Instance result_fmap : FMap result :=
  fun A B (f : A -> B) (r : result A) =>
    match r with
    | Returned a => Returned (f a)
    | Panicked => Panicked
    end.

(** A [for ... range] loop over a slice whose body can panic. *)
Fixpoint forEach {A S : Type} (body : S -> A -> result S) (l : list A) (s : S)
    : result S :=
  match l with
  | [] => Returned s
  | a :: l' => s' ← body s a; forEach body l' s'
  end.

(** The errors the methods return. *)
Inductive error : Type :=
  | ErrFundZero
  | ErrNoTransactionOfId
  | ErrInsufficientFunds (requested have : Currency)
  | ErrNoTransactionFound
  | ErrGenerateKeyPair.

(** [w.outputs[id].output.Value]: the map yields nil for an identifier without
    a record, and reading a field through nil panics; so does reading [Value]
    through a nil [output]. *)
Definition outputValue (w : Wallet) (id : OutputID) : result Currency :=
  match outputs w !! id with
  | Some {| output := Some o |} => Returned (Value o)
  | _ => Panicked
  end.

Section WalletMethods.

Context `{C : Consensus}.

(** The identifier [ca] that [Update] compares addresses against; the file
    uses it without declaring it. *)
Variable ca : CoinAddress.

(** *** New *)

(** [New] initialises the four declared maps and leaves every other field at
    its zero value.  [w.outputs] and [w.spendConditions] are not among the
    declared fields.  The wallet that [New()] returns has no output record:
    it is [New ∅ sc].  With other records [New outs sc] is a wallet with an
    empty ledger whose records were set from outside the methods. *)
Definition New (outs : gmap OutputID knownOutput) (sc : SpendConditions)
    : Wallet :=
  {| balance := 0; ownedOutputs := ∅; spentOutputs := ∅;
     spendableAddresses := ∅; transactionCounter := 0%Z;
     transactions := ∅; outputs := outs; spendConditions := sc |}.

(** *** Update *)

(** Lines 69-72: remove every output the transaction created. *)
Definition removeCreated (t : Transaction) (w : Wallet) : Wallet :=
  fold_left
    (fun w j => set_ownedOutputs (ownedOutputs w ∖ {[Transaction_OutputID t j]}) w)
    (seq 0 (length (Outputs t))) w.

(** Lines 75-80: re-add the inputs whose spend conditions hash to [ca]. *)
Definition readdInput (w : Wallet) (input : Input) : result Wallet :=
  if decide (ca = SpendConditions_CoinAddress (Input_SpendConditions input))
  then
    v ← outputValue w (Input_OutputID input);
    Returned
      (set_ownedOutputs ({[Input_OutputID input]} ∪ ownedOutputs w)
         (set_balance (balance w + v) w))
  else Returned w.

Definition rewindTransaction (t : Transaction) (w : Wallet) : result Wallet :=
  forEach readdInput (Inputs t) (removeCreated t w).

(** Line 67: [for i := len(b.Transactions) - 1; i >= 0; i--].  The counter [n]
    is the number of transactions still to visit, so the body runs on index
    [n - 1]. *)
Fixpoint rewindFrom (txs : list Transaction) (n : nat) (w : Wallet)
    : result Wallet :=
  match n with
  | O => Returned w
  | S i =>
      match txs !! i with
      | Some t => w' ← rewindTransaction t w; rewindFrom txs i w'
      | None => Panicked
      end
  end.

Definition rewindBlock (w : Wallet) (b : Block) : result Wallet :=
  rewindFrom (Transactions b) (length (Transactions b)) w.

(** Line 66: [for _, b := range rewound]. *)
Definition rewindBlocks (rewound : list Block) (w : Wallet) : result Wallet :=
  forEach rewindBlock rewound w.

(** Lines 89-91: remove the outputs the transaction consumed. *)
Definition removeConsumed (t : Transaction) (w : Wallet) : Wallet :=
  fold_left
    (fun w input => set_ownedOutputs (ownedOutputs w ∖ {[Input_OutputID input]}) w)
    (Inputs t) w.

(** Lines 94-100.  [&output] is the address of the range variable, which is
    one variable for the whole loop (the package predates the per-iteration
    variables of Go 1.22): every record written by the loop points to it, and
    when the loop ends it holds the last element of [t.Outputs].
    Nothing reads a record while the loop runs, so the record is written with
    that final content, [shared].  The assignment to [w.outputs[id].output]
    goes through the pointer the map yields, and panics when there is none. *)
Definition addCreated (t : Transaction) (shared : Output) (w : Wallet)
    (io : nat * Output) : result Wallet :=
  let (i, o) := io in
  if decide (ca = SpendHash o) then
    let id := Transaction_OutputID t i in
    let w1 := set_ownedOutputs ({[id]} ∪ ownedOutputs w) w in
    match outputs w1 !! id with
    | Some _ =>
        let w2 := set_outputs (<[id := {| output := Some shared |}]> (outputs w1)) w1 in
        Returned (set_balance (balance w2 + Value o) w2)
    | None => Panicked
    end
  else Returned w.

Definition applyTransaction (w : Wallet) (t : Transaction) : result Wallet :=
  match last (Outputs t) with
  | Some shared =>
      forEach (addCreated t shared) (imap pair (Outputs t)) (removeConsumed t w)
  | None => Returned (removeConsumed t w)
  end.

Definition applyBlock (w : Wallet) (b : Block) : result Wallet :=
  forEach applyTransaction (Transactions b) w.

Definition applyBlocks (applied : list Block) (w : Wallet) : result Wallet :=
  forEach applyBlock applied w.

Definition Update (w : Wallet) (rewound applied : list Block)
    : result (Wallet * option error) :=
  w1 ← rewindBlocks rewound w;
  w2 ← applyBlocks applied w1;
  Returned (w2, None).

(** *** Reset *)

(** The body of the loop over [w.spentOutputs], lines 114-119. *)
Definition releaseOne (w : Wallet) (id : OutputID) : result Wallet :=
  w1 ← (if decide (id ∈ ownedOutputs w)
        then v ← outputValue w id; Returned (set_balance (balance w + v) w)
        else Returned w);
  Returned (set_spentOutputs (spentOutputs w1 ∖ {[id]}) w1).

(** [order] is the sequence in which [range w.spentOutputs] yields the keys;
    Go leaves it unspecified. *)
Definition Reset (order : list OutputID) (w : Wallet)
    : result (Wallet * option error) :=
  w' ← forEach releaseOne order w;
  Returned (w', None).

(** *** Balance *)

Definition Balance (w : Wallet) : Currency * option error :=
  (balance w, None).

(** *** CoinAddress *)

(** [keys] is what [signatures.GenerateKeyPair] returned: a key pair, or
    [None] for an error.  On an error the named result [coinAddress] is
    returned at its zero value. *)
Definition Wallet_CoinAddress (keys : option (SecretKey * PublicKey))
    (w : Wallet) : result (Wallet * (CoinAddress * option error)) :=
  match keys with
  | None => Returned (w, (0, Some ErrGenerateKeyPair))
  | Some (sk, pk) =>
      let newSpendableAddress :=
        {| spendConditions_of := {| NumSignatures := 1; PublicKeys := [pk] |};
           secretKey := sk |} in
      let coinAddress :=
        SpendConditions_CoinAddress (spendConditions_of newSpendableAddress) in
      Returned
        (set_spendableAddresses
           (<[coinAddress := newSpendableAddress]> (spendableAddresses w)) w,
         (coinAddress, None))
  end.

(** *** RegisterTransaction *)

(** [transactionCounter] is a Go [int]: 64 bits, two's complement. *)
Definition int_wrap (z : Z) : Z := ((z + 2 ^ 63) mod 2 ^ 64 - 2 ^ 63)%Z.

(** [strconv.Itoa]: the decimal numeral, with a minus sign below zero. *)
Definition Itoa (z : Z) : string := pretty z.

(** Line 158 assigns to the field [transaction] of [w.transactions[id]].  The
    map holds pointers and yields nil for a key it does not hold, so the
    assignment panics unless the table already has an entry under [id]; no
    statement of the method adds a key to the table. *)
Definition RegisterTransaction (w : Wallet) (t : Transaction)
    : result (Wallet * (string * option error)) :=
  let id := Itoa (transactionCounter w) in
  let w1 := set_transactionCounter (int_wrap (transactionCounter w + 1)) w in
  match transactions w1 !! id with
  | Some ot =>
      Returned
        (set_transactions
           (<[id := {| transaction := t; inputs := inputs ot |}]> (transactions w1))
           w1,
         (id, None))
  | None => Panicked
  end.

(** *** FundTransaction *)

Definition newInput (w : Wallet) (id : OutputID) : Input :=
  {| Input_OutputID := id; Input_SpendConditions := spendConditions w |}.

(** Lines 175-197, the loop over [w.ownedOutputs]; [order] is the sequence in
    which [range] yields the keys not yet visited, [total] and [newInputs] are
    the two local variables. *)
Fixpoint selectInputs (w : Wallet) (amount : Currency) (order : list OutputID)
    (total : Currency) (newInputs : list Input)
    : result (Currency * list Input) :=
  match order with
  | [] => Returned (total, newInputs)
  | id :: rest =>
      if decide (id ∈ spentOutputs w)
      then selectInputs w amount rest total newInputs
      else
        v ← outputValue w id;
        let newInputs' := newInputs ++ [newInput w id] in
        let total' := total + v in
        if decide (amount ≤ total')
        then Returned (total', newInputs')
        else selectInputs w amount rest total' newInputs'
  end.

(** Lines 206-209: one pass over [newInputs], appending to [ot.inputs] and
    marking the outputs spent. *)
Definition markSpent (len : N) (st : list N * gset OutputID) (input : Input)
    : list N * gset OutputID :=
  (st.1 ++ [len], {[Input_OutputID input]} ∪ st.2).

Definition FundTransaction (order : list OutputID) (w : Wallet) (id : string)
    (amount : Currency) : result (Wallet * option error) :=
  if decide (amount = 0) then Returned (w, Some ErrFundZero)
  else
    match transactions w !! id with
    | None => Returned (w, Some ErrNoTransactionOfId)
    | Some ot =>
        let t := transaction ot in
        sel ← selectInputs w amount order 0 [];
        let (total, newInputs) := sel : Currency * list Input in
        if decide (total < amount)
        then Returned (w, Some (ErrInsufficientFunds amount total))
        else
          let tInputs := Inputs t ++ newInputs in
          let st :=
            fold_left (markSpent (N.of_nat (length tInputs))) newInputs
              (inputs ot, spentOutputs w) in
          let tOutputs :=
            if decide (0 < total - amount)
            then Outputs t ++
                   [{| Value := total - amount;
                       SpendHash := SpendConditions_CoinAddress (spendConditions w) |}]
            else Outputs t in
          let ot' :=
            {| transaction :=
                 {| Inputs := tInputs; MinerFees := MinerFees t;
                    Outputs := tOutputs |};
               inputs := st.1 |} in
          Returned
            (set_transactions (<[id := ot']> (transactions w))
               (set_spentOutputs st.2 w),
             None)
    end.

(** *** AddMinerFee and AddOutput *)

Definition AddMinerFee (w : Wallet) (id : string) (fee : Currency)
    : result (Wallet * option error) :=
  match transactions w !! id with
  | None => Returned (w, Some ErrNoTransactionFound)
  | Some to =>
      let t := transaction to in
      let to' :=
        {| transaction :=
             {| Inputs := Inputs t; MinerFees := MinerFees t ++ [fee];
                Outputs := Outputs t |};
           inputs := inputs to |} in
      Returned (set_transactions (<[id := to']> (transactions w)) w, None)
  end.

Definition AddOutput (w : Wallet) (id : string) (amount : Currency)
    (dest : CoinAddress) : result (Wallet * option error) :=
  match transactions w !! id with
  | None => Returned (w, Some ErrNoTransactionFound)
  | Some to =>
      let t := transaction to in
      let to' :=
        {| transaction :=
             {| Inputs := Inputs t; MinerFees := MinerFees t;
                Outputs := Outputs t ++ [{| Value := amount; SpendHash := dest |}] |};
           inputs := inputs to |} in
      Returned (set_transactions (<[id := to']> (transactions w)) w, None)
  end.

(** ** Sequences of calls *)

(** A call of a method with its arguments; a call that ranges over a map
    carries the order in which the keys came. *)
Inductive call : Type :=
  | CallUpdate (rewound applied : list Block)
  | CallReset (order : list OutputID)
  | CallBalance
  | CallCoinAddress (keys : option (SecretKey * PublicKey))
  | CallRegisterTransaction (t : Transaction)
  | CallFundTransaction (order : list OutputID) (id : string) (amount : Currency)
  | CallAddMinerFee (id : string) (fee : Currency)
  | CallAddOutput (id : string) (amount : Currency) (dest : CoinAddress).

(** The order a call carries is an enumeration of the map it ranges over: Go
    yields every key once, in an order it leaves open. *)
Definition enumerates (order : list OutputID) (s : gset OutputID) : Prop :=
  order ≡ₚ elements s.

Definition step (w : Wallet) (c : call) : result Wallet :=
  match c with
  | CallUpdate rewound applied => fst <$> Update w rewound applied
  | CallReset order => fst <$> Reset order w
  | CallBalance => Returned w
  | CallCoinAddress keys => fst <$> Wallet_CoinAddress keys w
  | CallRegisterTransaction t => fst <$> RegisterTransaction w t
  | CallFundTransaction order id amount => fst <$> FundTransaction order w id amount
  | CallAddMinerFee id fee => fst <$> AddMinerFee w id fee
  | CallAddOutput id amount dest => fst <$> AddOutput w id amount dest
  end.

Definition run (cs : list call) (w : Wallet) : result Wallet :=
  forEach step cs w.

End WalletMethods.

(** ** Quantities the claims speak about *)

Definition sumN (l : list N) : N := fold_right N.add 0 l.

(** The value the wallet has on record for an identifier; [0] when it has
    none. *)
Definition recordedValue (w : Wallet) (id : OutputID) : Currency :=
  match outputs w !! id with
  | Some {| output := Some o |} => Value o
  | _ => 0
  end.

(** The sum of the values of the outputs in the owned-outputs mapping. *)
Definition ownedValue (w : Wallet) : Currency :=
  sumN (recordedValue w <$> elements (ownedOutputs w)).

(** The inputs a call appended to the transaction of session [id]. *)
Definition appendedInputs (w w' : Wallet) (id : string) (new : list Input)
    : Prop :=
  ∃ ot ot', transactions w !! id = Some ot ∧ transactions w' !! id = Some ot' ∧
            Inputs (transaction ot') = Inputs (transaction ot) ++ new.

(** The wallet has a record with an output for [id]. *)
Definition recorded (w : Wallet) (id : OutputID) : Prop :=
  ∃ o, outputs w !! id = Some {| output := Some o |}.

(** The outputs the loop of [FundTransaction] does not skip, in the order in
    which the map yields them. *)
Definition candidates (w : Wallet) (order : list OutputID) : list OutputID :=
  filter (λ id, id ∉ spentOutputs w) order.

(** The recorded values of a list of outputs, added up. *)
Definition valueOf (w : Wallet) (sel : list OutputID) : Currency :=
  sumN (recordedValue w <$> sel).

(** The calls that release reservations. *)
Definition releases (c : call) : bool :=
  match c with
  | CallReset _ => true
  | _ => false
  end.

(** ** The specification's words, where they differ from the code *)

(** The rewind phase in the spec's words: blocks in reverse of the order
    given, and within each block the transactions in reverse order. *)
Definition rewindBlocks_spec `{C : Consensus} (ca : CoinAddress)
    (rewound : list Block) (w : Wallet) : result Wallet :=
  forEach
    (fun w b => forEach (fun w t => rewindTransaction ca t w) (rev (Transactions b)) w)
    (rev rewound) w.

(** The order the spec fixes for coin selection: ascending by output
    identifier. *)
Definition ascending (w : Wallet) : list OutputID :=
  merge_sort N.le (elements (ownedOutputs w)).

(** An address is freshly issued by a call when the wallet did not hold it
    among its spendable addresses before the call and holds it after. *)
Definition freshlyIssued (w w' : Wallet) (a : CoinAddress) : Prop :=
  spendableAddresses w !! a = None ∧ is_Some (spendableAddresses w' !! a).

(** ** A concrete consensus and concrete chains *)

Module Demo.

(** Stand-ins for the two hashes: injective enough on the values below. *)
Definition consensus : Consensus := {|
  Transaction_OutputID t i :=
    100 * (sumN (Value <$> Outputs t) + sumN (Input_OutputID <$> Inputs t))
    + N.of_nat i;
  SpendConditions_CoinAddress sc := 1000 * NumSignatures sc + sumN (PublicKeys sc)
|}.

(** The wallet's address is 7. *)
Definition ca : CoinAddress := 7.
Definition ours : SpendConditions := {| NumSignatures := 0; PublicKeys := [7] |}.

(** [pay] creates one output of 20 for the wallet; its identifier is 2000. *)
Definition pay : Transaction :=
  {| Inputs := []; MinerFees := [];
     Outputs := [{| Value := 20; SpendHash := 7 |}] |}.

(** [spend] consumes output 2000 and pays 20 to address 9. *)
Definition spend : Transaction :=
  {| Inputs := [{| Input_OutputID := 2000; Input_SpendConditions := ours |}];
     MinerFees := [];
     Outputs := [{| Value := 20; SpendHash := 9 |}] |}.

Definition payBlock : Block := {| Transactions := [pay] |}.
Definition spendBlock : Block := {| Transactions := [spend] |}.

(** A fresh wallet that has a record, still without an output, for 2000. *)
Definition fresh : Wallet := New {[ 2000 := {| output := None |} ]} ours.

(** A fresh wallet without any record. *)
Definition blank : Wallet := New ∅ ours.

(** A wallet with outputs 1 (worth 10) and 2 (worth 5) and an open session
    ["0"] on an empty transaction. *)
Definition emptyTransaction : Transaction :=
  {| Inputs := []; MinerFees := []; Outputs := [] |}.

Definition funded : Wallet :=
  {| balance := 15; ownedOutputs := {[1; 2]}; spentOutputs := ∅;
     spendableAddresses := ∅; transactionCounter := 1%Z;
     transactions := {[ "0" := {| transaction := emptyTransaction; inputs := [] |} ]};
     outputs := {[ 1 := {| output := Some {| Value := 10; SpendHash := 7 |} |};
                   2 := {| output := Some {| Value := 5; SpendHash := 7 |} |} ]};
     spendConditions := ours |}.

(** [fresh] once the record for 2000 holds the output that was paid. *)
Definition paid : Wallet :=
  set_outputs {[ 2000 := {| output := Some {| Value := 20; SpendHash := 7 |} |} ]}
    fresh.

(** [funded] after [FundTransaction("0", 12)] has taken output 1 and
    then output 2: both are reserved, the transaction has the two inputs and
    a refund of 3. *)
Definition after12 : Wallet :=
  set_transactions
    {[ "0" :=
         {| transaction :=
              {| Inputs := [newInput funded 1; newInput funded 2];
                 MinerFees := [];
                 Outputs := [{| Value := 3; SpendHash := 7 |}] |};
            inputs := [2; 2] |} ]}
    (set_spentOutputs {[1; 2]} funded).

(** [funded] after [FundTransaction("0", 10)] has taken output 1. *)
Definition after10 : Wallet :=
  set_transactions
    {[ "0" :=
         {| transaction :=
              {| Inputs := [newInput funded 1]; MinerFees := [];
                 Outputs := [] |};
            inputs := [1] |} ]}
    (set_spentOutputs {[1]} funded).

(** [funded] after [FundTransaction("0", 5)] when the map yields output
    2 first: output 2 covers the amount. *)
Definition after5_from2 : Wallet :=
  set_transactions
    {[ "0" :=
         {| transaction :=
              {| Inputs := [newInput funded 2]; MinerFees := [];
                 Outputs := [] |};
            inputs := [1] |} ]}
    (set_spentOutputs {[2]} funded).

(** The same call when the map yields output 1 first: output 1 is taken and 5
    are refunded. *)
Definition after5_from1 : Wallet :=
  set_transactions
    {[ "0" :=
         {| transaction :=
              {| Inputs := [newInput funded 1]; MinerFees := [];
                 Outputs := [{| Value := 5; SpendHash := 7 |}] |};
            inputs := [1] |} ]}
    (set_spentOutputs {[1]} funded).

(** [after10] after a miner fee of 1 was added to session ["0"]. *)
Definition withFee : Wallet :=
  set_transactions
    {[ "0" :=
         {| transaction :=
              {| Inputs := [newInput funded 1]; MinerFees := [1];
                 Outputs := [] |};
            inputs := [1] |} ]}
    (set_spentOutputs {[1]} funded).

(** [withFee] after [FundTransaction("0", 5)]: output 1 is skipped, output 2
    is taken. *)
Definition after5 : Wallet :=
  set_transactions
    {[ "0" :=
         {| transaction :=
              {| Inputs := [newInput funded 1; newInput funded 2];
                 MinerFees := [1]; Outputs := [] |};
            inputs := [1; 2] |} ]}
    (set_spentOutputs {[1; 2]} funded).

Definition between : list call := [CallAddMinerFee "0" 1; CallUpdate [] []].

End Demo.

(** ** More concrete wallets *)

Module Demo2.

(** [Demo.fresh] after the block that pays the wallet 20. *)
Definition afterPay : Wallet :=
  set_balance 20
    (set_outputs
       {[ 2000 := {| output := Some {| Value := 20; SpendHash := 7 |} |} ]}
       (set_ownedOutputs {[2000]} Demo.fresh)).

(** [afterPay] after the block that spends output 2000. *)
Definition afterSpend : Wallet := set_ownedOutputs ∅ afterPay.

(** [afterSpend] after the spending transaction was rewound. *)
Definition afterUndo : Wallet :=
  set_ownedOutputs {[2000]} (set_balance 40 afterSpend).

(** A transaction between strangers: it consumes output 1 under conditions
    that hash to 9 and pays 5 to address 9. *)
Definition theirs : SpendConditions :=
  {| NumSignatures := 0; PublicKeys := [9] |}.

Definition strangers : Transaction :=
  {| Inputs := [{| Input_OutputID := 1; Input_SpendConditions := theirs |}];
     MinerFees := [];
     Outputs := [{| Value := 5; SpendHash := 9 |}] |}.

Definition strangersBlock : Block := {| Transactions := [strangers] |}.

(** A transaction that pays 10 to the wallet and then 500 to address 9; its
    first output has identifier 51000. *)
Definition mixed : Transaction :=
  {| Inputs := []; MinerFees := [];
     Outputs := [{| Value := 10; SpendHash := 7 |};
                 {| Value := 500; SpendHash := 9 |}] |}.

(** A fresh wallet with a record, still without an output, for 51000, and
    the same wallet after [mixed] was applied. *)
Definition expecting : Wallet :=
  New {[ 51000 := {| output := None |} ]} Demo.ours.

Definition afterMixed : Wallet :=
  set_balance 10
    (set_outputs
       {[ 51000 := {| output := Some {| Value := 500; SpendHash := 9 |} |} ]}
       (set_ownedOutputs {[51000]} expecting)).

(** [Demo.after12] after [Reset], and after the same [FundTransaction]
    once more. *)
Definition released : Wallet :=
  set_spentOutputs ∅ (set_balance 30 Demo.after12).

Definition fundedTwice : Wallet :=
  set_transactions
    {[ "0" :=
         {| transaction :=
              {| Inputs := [newInput Demo.funded 1; newInput Demo.funded 2;
                            newInput Demo.funded 1; newInput Demo.funded 2];
                 MinerFees := [];
                 Outputs := [{| Value := 3; SpendHash := 7 |};
                             {| Value := 3; SpendHash := 7 |}] |};
            inputs := [2; 2; 4; 4] |} ]}
    (set_spentOutputs {[1; 2]} released).

(** [Demo.fresh] after [CoinAddress] with the key pair (1, 5), whose address
    is 1005. *)
Definition issued : Wallet :=
  set_spendableAddresses
    {[ 1005 :=
         {| spendConditions_of := {| NumSignatures := 1; PublicKeys := [5] |};
            secretKey := 1 |} ]}
    Demo.fresh.


End Demo2.

(** ** Further quantities *)

(** What applying [t] adds to the balance: the values of its outputs that pay
    [ca]. *)
Definition credited (ca : CoinAddress) (t : Transaction) : Currency :=
  sumN (Value <$> filter (λ o, ca = SpendHash o) (Outputs t)).

(** A transaction that does not concern [ca]: none of its outputs pays [ca]
    and none of its inputs was spent under conditions that hash to [ca]. *)
Definition foreignTransaction `{C : Consensus} (ca : CoinAddress)
    (t : Transaction) : Prop :=
  Forall (λ o, ca ≠ SpendHash o) (Outputs t) ∧
  Forall (λ i, ca ≠ SpendConditions_CoinAddress (Input_SpendConditions i))
    (Inputs t).

Definition foreignBlock `{C : Consensus} (ca : CoinAddress) (b : Block)
    : Prop :=
  Forall (foreignTransaction ca) (Transactions b).

(** What [Update] may do to the ledger on blocks that do not concern the wallet:
    nothing to the balance and the records, and nothing to the owned outputs
    but removing some. *)
Definition shrunk (w w' : Wallet) : Prop :=
  balance w' = balance w ∧ outputs w' = outputs w ∧
  ownedOutputs w' ⊆ ownedOutputs w.

(** ** Loops *)

Lemma forEach_ext {A S : Type} (f g : S -> A -> result S) (l : list A) (s : S) :
  (∀ s a, f s a = g s a) → forEach f l s = forEach g l s.
Proof.
  intros Hfg. revert s. induction l as [|a l IH]; intros s; simpl; [done|].
  rewrite Hfg. destruct (g s a); simpl; [apply IH | done].
Qed.

Lemma forEach_cons {A S : Type} (body : S -> A -> result S) (a : A)
    (l : list A) (s : S) :
  forEach body (a :: l) s = body s a ≫= forEach body l.
Proof. reflexivity. Qed.

Lemma bind_Returned {A B : Type} (a : A) (k : A -> result B) :
  Returned a ≫= k = k a.
Proof. reflexivity. Qed.

(** An invariant of the loop body is an invariant of the loop. *)
Lemma forEach_inv {A S : Type} (P : S -> Prop) (body : S -> A -> result S)
    (l : list A) (s s' : S) :
  (∀ s a s', P s → body s a = Returned s' → P s') →
  P s → forEach body l s = Returned s' → P s'.
Proof.
  intros Hbody. revert s. induction l as [|a l IH]; intros s Hs; simpl.
  - intros [= <-]. exact Hs.
  - destruct (body s a) as [s1|] eqn:E; simpl; [|discriminate].
    apply IH. eapply Hbody; eauto.
Qed.

Lemma sumN_app (l1 l2 : list N) : sumN (l1 ++ l2) = sumN l1 + sumN l2.
Proof. induction l1 as [|x l1 IH]; simpl; [done | rewrite IH; lia]. Qed.

Lemma sumN_Permutation (l1 l2 : list N) : l1 ≡ₚ l2 → sumN l1 = sumN l2.
Proof. induction 1; simpl; lia. Qed.

Lemma fold_left_inv {A S : Type} (P : S -> Prop) (f : S -> A -> S)
    (l : list A) (s : S) :
  (∀ s a, P s → P (f s a)) → P s → P (fold_left f l s).
Proof.
  intros Hf. revert s. induction l as [|a l IH]; intros s Hs; simpl; auto.
Qed.

(** ** The concrete calls *)

Module DemoFacts.

Lemma fund12 :
  FundTransaction (C := Demo.consensus) [1; 2] Demo.funded "0" 12
  = Returned (Demo.after12, None).
Proof. vm_compute. reflexivity. Qed.

Lemma fund10 :
  FundTransaction (C := Demo.consensus) [1; 2] Demo.funded "0" 10
  = Returned (Demo.after10, None).
Proof. vm_compute. reflexivity. Qed.

Lemma yields_2_1 : enumerates [2; 1] (ownedOutputs Demo.funded).
Proof. unfold enumerates. vm_compute. reflexivity. Qed.

Lemma fund5_from2 :
  FundTransaction (C := Demo.consensus) [2; 1] Demo.funded "0" 5
  = Returned (Demo.after5_from2, None).
Proof. vm_compute. reflexivity. Qed.

Lemma yields_1_2 : enumerates [1; 2] (ownedOutputs Demo.funded).
Proof. unfold enumerates. vm_compute. apply perm_swap. Qed.

Lemma appended10 :
  appendedInputs Demo.funded Demo.after10 "0" [newInput Demo.funded 1].
Proof.
  exists {| transaction := Demo.emptyTransaction; inputs := [] |},
    {| transaction :=
         {| Inputs := [newInput Demo.funded 1]; MinerFees := []; Outputs := [] |};
       inputs := [1] |}.
  repeat split; vm_compute; reflexivity.
Qed.

Lemma quiet : Forall (λ c, releases c = false) Demo.between.
Proof. repeat constructor. Qed.

Lemma ran :
  run (C := Demo.consensus) Demo.ca Demo.between Demo.after10
  = Returned Demo.withFee.
Proof. vm_compute. reflexivity. Qed.

Lemma fund5 :
  FundTransaction (C := Demo.consensus) [1; 2] Demo.withFee "0" 5
  = Returned (Demo.after5, None).
Proof. vm_compute. reflexivity. Qed.

Lemma appended5 :
  appendedInputs Demo.withFee Demo.after5 "0" [newInput Demo.funded 2].
Proof.
  exists {| transaction :=
              {| Inputs := [newInput Demo.funded 1]; MinerFees := [1];
                 Outputs := [] |};
            inputs := [1] |},
    {| transaction :=
         {| Inputs := [newInput Demo.funded 1; newInput Demo.funded 2];
            MinerFees := [1]; Outputs := [] |};
       inputs := [1; 2] |}.
  repeat split; vm_compute; reflexivity.
Qed.

End DemoFacts.

(** ** Deleting outputs and the balance *)

(** Removing outputs from the owned-outputs mapping never touches the
    balance. *)
Lemma removeConsumed_balance (t : Transaction) (w : Wallet) :
  balance (removeConsumed t w) = balance w.
Proof.
  unfold removeConsumed. generalize (Inputs t). intros l. revert w.
  induction l as [|i l IH]; intros w; simpl; [reflexivity|].
  rewrite IH. reflexivity.
Qed.

Lemma removeCreated_balance `{Consensus} (t : Transaction) (w : Wallet) :
  balance (removeCreated t w) = balance w.
Proof.
  unfold removeCreated. generalize (seq 0 (length (Outputs t))). intros l.
  revert w. induction l as [|i l IH]; intros w; simpl; [reflexivity|].
  rewrite IH. reflexivity.
Qed.

(** ** What Update leaves alone *)

Section UpdateFrame.

Context `{C : Consensus}.
Variable ca : CoinAddress.

(** [Update] writes three fields: the balance, the owned outputs and the
    output records.  A quantity [f] that does not depend on them is the same
    after the call. *)
Context {A : Type} (f : Wallet -> A).
Hypothesis f_balance : ∀ b w, f (set_balance b w) = f w.
Hypothesis f_ownedOutputs : ∀ s w, f (set_ownedOutputs s w) = f w.
Hypothesis f_outputs : ∀ m w, f (set_outputs m w) = f w.

Lemma rewindTransaction_keeps (t : Transaction) (w w' : Wallet) :
  rewindTransaction ca t w = Returned w' → f w' = f w.
Proof.
  unfold rewindTransaction. apply (forEach_inv (λ w', f w' = f w)).
  - intros s a s' Hs. unfold readdInput. case_decide.
    + destruct (outputValue s (Input_OutputID a)); simpl; [|discriminate].
      intros [= <-]. by rewrite f_ownedOutputs, f_balance.
    + intros [= <-]. exact Hs.
  - unfold removeCreated. apply (fold_left_inv (λ w', f w' = f w)); [|done].
    intros s j Hs. by rewrite f_ownedOutputs.
Qed.

Lemma rewindFrom_keeps (txs : list Transaction) (n : nat) (w w' : Wallet) :
  rewindFrom ca txs n w = Returned w' → f w' = f w.
Proof.
  revert w. induction n as [|i IH]; intros w; simpl.
  - intros [= <-]. done.
  - destruct (txs !! i) as [t|]; [|discriminate].
    destruct (rewindTransaction ca t w) as [w1|] eqn:E; simpl; [|discriminate].
    intros Hrest. apply IH in Hrest. apply rewindTransaction_keeps in E.
    congruence.
Qed.

Lemma applyTransaction_keeps (t : Transaction) (w w' : Wallet) :
  applyTransaction ca w t = Returned w' → f w' = f w.
Proof.
  assert (Hrm : f (removeConsumed t w) = f w).
  { unfold removeConsumed. apply (fold_left_inv (λ w', f w' = f w)); [|done].
    intros s i Hs. by rewrite f_ownedOutputs. }
  unfold applyTransaction. destruct (last (Outputs t)) as [shared|].
  - apply (forEach_inv (λ w', f w' = f w)); [|done].
    intros s [i o] s' Hs. unfold addCreated. case_decide.
    + simpl. destruct (outputs s !! Transaction_OutputID t i); [|discriminate].
      intros [= <-]. by rewrite f_balance, f_outputs, f_ownedOutputs.
    + intros [= <-]. exact Hs.
  - intros [= <-]. done.
Qed.

Lemma Update_keeps (w : Wallet) (rewound applied : list Block) (w' : Wallet)
    (e : option error) :
  Update ca w rewound applied = Returned (w', e) → f w' = f w.
Proof.
  unfold Update.
  destruct (rewindBlocks ca rewound w) as [w1|] eqn:E1; simpl; [|discriminate].
  destruct (applyBlocks ca applied w1) as [w2|] eqn:E2; simpl; [|discriminate].
  intros [= <- <-].
  assert (H1 : f w1 = f w).
  { revert E1. unfold rewindBlocks.
    apply (forEach_inv (λ w', f w' = f w)); [|done].
    intros s b s' Hs Hb. apply rewindFrom_keeps in Hb. congruence. }
  rewrite <- H1. revert E2. unfold applyBlocks.
  apply (forEach_inv (λ w', f w' = f w1)); [|done].
  intros s b s' Hs. unfold applyBlock.
  apply (forEach_inv (λ w', f w' = f w1)); [|done].
  intros s1 t s1' Hs1 Ht. apply applyTransaction_keeps in Ht. congruence.
Qed.

End UpdateFrame.

(** ** The wallets that calls can reach from a fresh one *)

Section Reachable.

Context `{C : Consensus}.
Variable ca : CoinAddress.

(** No method adds a session to an empty session table:
    [RegisterTransaction] panics on it, the other methods do not write it or
    return their error. *)
Lemma step_no_sessions (w : Wallet) (c : call) (w' : Wallet) :
  transactions w = ∅ → step ca w c = Returned w' → transactions w' = ∅.
Proof.
  intros Hw. destruct c; simpl.
  - destruct (Update ca w rewound applied) as [[w1 e]|] eqn:E; [|discriminate].
    intros [= <-]. simpl. apply (Update_keeps ca transactions) in E; [|done..].
    by rewrite E.
  - unfold Reset.
    destruct (forEach releaseOne order w) as [w1|] eqn:E; [|discriminate].
    intros [= <-]. simpl. revert E.
    apply (forEach_inv (λ w', transactions w' = ∅)); [|done].
    intros s id s' Hs. unfold releaseOne. case_decide.
    + destruct (outputValue s id); simpl; [|discriminate]. by intros [= <-].
    + by intros [= <-].
  - by intros [= <-].
  - unfold Wallet_CoinAddress. destruct keys as [[sk pk]|]; by intros [= <-].
  - unfold RegisterTransaction. simpl. rewrite Hw, lookup_empty. discriminate.
  - unfold FundTransaction. rewrite Hw, lookup_empty.
    case_decide; by intros [= <-].
  - unfold AddMinerFee. rewrite Hw, lookup_empty. by intros [= <-].
  - unfold AddOutput. rewrite Hw, lookup_empty. by intros [= <-].
Qed.

Lemma run_New_no_sessions (cs : list call) (outs : gmap OutputID knownOutput)
    (sc : SpendConditions) (w : Wallet) :
  run ca cs (New outs sc) = Returned w → transactions w = ∅.
Proof.
  unfold run. apply (forEach_inv (λ w', transactions w' = ∅)); [|done].
  intros s c s' Hs Hc. by apply (step_no_sessions s c).
Qed.

(** After any calls on a fresh wallet, [RegisterTransaction] panics. *)
Lemma RegisterTransaction_panics_when_reached (cs : list call)
    (outs : gmap OutputID knownOutput) (sc : SpendConditions) (w : Wallet)
    (t : Transaction) :
  run ca cs (New outs sc) = Returned w → RegisterTransaction w t = Panicked.
Proof.
  intros Hrun. apply run_New_no_sessions in Hrun.
  unfold RegisterTransaction. simpl. by rewrite Hrun, lookup_empty.
Qed.

(** No call lowers the balance: every write to it adds a value. *)
Lemma step_balance (w : Wallet) (c : call) (w' : Wallet) :
  step ca w c = Returned w' → balance w ≤ balance w'.
Proof.
  destruct c; simpl.
  - unfold Update.
    destruct (rewindBlocks ca rewound w) as [w1|] eqn:E1; simpl; [|discriminate].
    destruct (applyBlocks ca applied w1) as [w2|] eqn:E2; simpl; [|discriminate].
    intros [= <-]. revert E2. unfold applyBlocks.
    apply (forEach_inv (λ w', balance w ≤ balance w')).
    + intros s b s' Hs. unfold applyBlock.
      apply (forEach_inv (λ w', balance w ≤ balance w')); [|done].
      intros s1 t s1' Hs1. unfold applyTransaction.
      destruct (last (Outputs t)) as [shared|].
      * apply (forEach_inv (λ w', balance w ≤ balance w')).
        -- intros s2 [i o] s2' Hs2. unfold addCreated. case_decide.
           ++ simpl. destruct (outputs s2 !! Transaction_OutputID t i);
                [|discriminate].
              intros [= <-]. simpl. lia.
           ++ by intros [= <-].
        -- by rewrite removeConsumed_balance.
      * intros [= <-]. by rewrite removeConsumed_balance.
    + revert E1. unfold rewindBlocks.
      apply (forEach_inv (λ w', balance w ≤ balance w')); [|done].
      intros s b s' Hs. unfold rewindBlock. generalize (length (Transactions b)).
      intros n. revert s Hs. induction n as [|i IH]; intros s Hs; simpl.
      * by intros [= <-].
      * destruct (Transactions b !! i) as [t|]; [|discriminate].
        destruct (rewindTransaction ca t s) as [s1|] eqn:E; simpl; [|discriminate].
        apply IH. revert E. unfold rewindTransaction.
        apply (forEach_inv (λ w', balance w ≤ balance w')).
        -- intros s2 a s2' Hs2. unfold readdInput. case_decide.
           ++ destruct (outputValue s2 (Input_OutputID a)); simpl; [|discriminate].
              intros [= <-]. simpl. lia.
           ++ by intros [= <-].
        -- by rewrite removeCreated_balance.
  - unfold Reset.
    destruct (forEach releaseOne order w) as [w1|] eqn:E; [|discriminate].
    intros [= <-]. simpl. revert E.
    apply (forEach_inv (λ w', balance w ≤ balance w')); [|done].
    intros s id s' Hs. unfold releaseOne. case_decide.
    + destruct (outputValue s id); simpl; [|discriminate].
      intros [= <-]. simpl. lia.
    + by intros [= <-].
  - by intros [= <-].
  - unfold Wallet_CoinAddress. destruct keys as [[sk pk]|]; by intros [= <-].
  - unfold RegisterTransaction. simpl.
    destruct (transactions w !! Itoa (transactionCounter w)); [|discriminate].
    by intros [= <-].
  - unfold FundTransaction. case_decide; [by intros [= <-]|].
    destruct (transactions w !! id); [|by intros [= <-]].
    destruct (selectInputs w amount order 0 []) as [[total new]|]; simpl;
      [|discriminate].
    case_decide; by intros [= <-].
  - unfold AddMinerFee. destruct (transactions w !! id); by intros [= <-].
  - unfold AddOutput. destruct (transactions w !! id); by intros [= <-].
Qed.

(** X16.  No sequence of calls lowers the balance: every write to it adds a
    value, whether outputs are created, consumed, rewound, reserved or
    released. *)
Lemma run_balance (cs : list call) (w w' : Wallet) :
  run ca cs w = Returned w' → balance w ≤ balance w'.
Proof.
  unfold run. apply (forEach_inv (λ w', balance w ≤ balance w')); [|done].
  intros s c s' Hs Hc. apply step_balance in Hc. lia.
Qed.

End Reachable.

(** ** The balance and the owned outputs under Update *)

(** On a wallet with an empty ledger and a record for output 2000, applying
    a block that pays the wallet 20 and then a block that spends that output
    leaves the owned-outputs mapping empty, so the outputs in it are worth 0,
    while [Balance] still reports 20: line 90 deletes the consumed output and
    leaves the balance as it was.  The wallet [New()] returns has no such
    record. *)
Theorem Update_spent_output_stays_in_balance :
  let after :=
    run (C := Demo.consensus) Demo.ca
      [CallUpdate [] [Demo.payBlock]; CallUpdate [] [Demo.spendBlock]]
      Demo.fresh in
  (ownedOutputs <$> after) = Returned ∅ ∧
  (ownedValue <$> after) = Returned 0 ∧
  (Balance <$> after) = Returned (20, None).
Proof. vm_compute. repeat split; reflexivity. Qed.

(** C2.  Applying the block that pays the wallet 20 and then rewinding the
    same block brings the owned-outputs mapping back to what it was, and
    leaves the balance at 20 instead of 0: line 71 deletes the created output
    and leaves the balance as it was. *)
Theorem Update_apply_rewind_keeps_value :
  let after :=
    run (C := Demo.consensus) Demo.ca
      [CallUpdate [] [Demo.payBlock]; CallUpdate [Demo.payBlock] []]
      Demo.fresh in
  (ownedOutputs <$> after) = Returned (ownedOutputs Demo.fresh) ∧
  (balance <$> after) = Returned 20 ∧
  balance Demo.fresh = 0.
Proof. vm_compute. repeat split; reflexivity. Qed.

(** C8.  Rewinding a block whose transaction spent, under the wallet's spend
    conditions, an output the wallet has no record of: line 77 reads the
    value through the nil record, and [Update] panics instead of returning. *)
Theorem Update_rewind_unrecorded_input_panics :
  Update (C := Demo.consensus) Demo.ca Demo.blank [Demo.spendBlock] []
  = Panicked.
Proof. vm_compute. reflexivity. Qed.

(** C10.  On a fresh wallet [RegisterTransaction] panics: the session table
    has no entry under the new id, and line 158 assigns through the nil
    pointer the table yields. *)
Theorem RegisterTransaction_fresh_wallet_panics
    (outs : gmap OutputID knownOutput) (sc : SpendConditions)
    (t : Transaction) :
  RegisterTransaction (New outs sc) t = Panicked.
Proof. unfold RegisterTransaction. simpl. rewrite lookup_empty. reflexivity. Qed.

(** ** The order in which Update rewinds *)

Section Rewind.

Context `{C : Consensus}.
Variable ca : CoinAddress.

(** The countdown of line 67 visits the first [n] transactions last to
    first. *)
Lemma rewindFrom_rev (txs : list Transaction) (n : nat) (w : Wallet) :
  (n ≤ length txs)%nat →
  rewindFrom ca txs n w
  = forEach (fun w t => rewindTransaction ca t w) (rev (take n txs)) w.
Proof.
  revert w. induction n as [|i IH]; intros w Hn; simpl.
  - reflexivity.
  - destruct (lookup_lt_is_Some_2 txs i) as [t Ht]; [lia|].
    rewrite Ht, (take_S_r _ _ _ Ht), rev_app_distr. simpl.
    destruct (rewindTransaction ca t w) as [w'|]; simpl; [|reflexivity].
    apply IH. lia.
Qed.

(** C5, as the code has it.  The rewind phase of [Update] takes the rewound
    blocks in the order in which they are given, first to last; within each
    block it takes the transactions in reverse order, last to first. *)
Theorem rewindBlocks_given_order (rewound : list Block) (w : Wallet) :
  rewindBlocks ca rewound w
  = forEach
      (fun w b => forEach (fun w t => rewindTransaction ca t w) (rev (Transactions b)) w)
      rewound w.
Proof.
  unfold rewindBlocks. apply forEach_ext. intros s b. unfold rewindBlock.
  rewrite rewindFrom_rev by lia. rewrite firstn_all. reflexivity.
Qed.

End Rewind.

(** C5, as the claim has it, fails.  The chain first paid the wallet output
    2000 and then spent it; both blocks are rewound, given oldest first.  The
    code undoes the payment and then the spending, and ends with 2000 owned;
    in reverse of the given order the spending is undone first and 2000 is not
    owned at the end. *)
Lemma rewindBlocks_not_reversed :
  (ownedOutputs <$> rewindBlocks (C := Demo.consensus) Demo.ca
                      [Demo.payBlock; Demo.spendBlock] Demo.paid)
  = Returned {[2000]} ∧
  (ownedOutputs <$> rewindBlocks_spec (C := Demo.consensus) Demo.ca
                      [Demo.payBlock; Demo.spendBlock] Demo.paid)
  = Returned ∅.
Proof. vm_compute. split; reflexivity. Qed.

(** ** A failed FundTransaction *)

(** C6.  When [FundTransaction] returns an error, the wallet after the call is
    the wallet before it, and the error is one of three: the amount is zero,
    the session is unknown, or the loop ended with a total below the
    amount. *)
Theorem FundTransaction_error_leaves_wallet `{C : Consensus}
    (order : list OutputID) (w : Wallet) (id : string) (amount : Currency)
    (w' : Wallet) (e : error) :
  FundTransaction order w id amount = Returned (w', Some e) →
  w' = w ∧
  (e = ErrFundZero ∧ amount = 0
   ∨ e = ErrNoTransactionOfId ∧ amount ≠ 0 ∧ transactions w !! id = None
   ∨ ∃ total, e = ErrInsufficientFunds amount total ∧ total < amount).
Proof.
  unfold FundTransaction.
  destruct (decide (amount = 0)) as [Hz|Hnz].
  { intros [= <- <-]. split; [done|]. left. done. }
  destruct (transactions w !! id) as [ot|] eqn:Hid.
  2:{ intros [= <- <-]. split; [done|]. right. left. done. }
  destruct (selectInputs w amount order 0 []) as [[total newInputs]|]; simpl;
    [|discriminate].
  destruct (decide (total < amount)) as [Hlt|Hge]; [|discriminate].
  intros [= <- <-]. split; [done|]. right. right. exists total. done.
Qed.

Lemma FundTransaction_error_leaves_wallet_witness :
  FundTransaction (C := Demo.consensus) [1; 2] Demo.funded "0" 100
    = Returned (Demo.funded, Some (ErrInsufficientFunds 100 15)) ∧
  Demo.funded = Demo.funded ∧
  (ErrInsufficientFunds 100 15 = ErrFundZero ∧ 100 = 0
   ∨ ErrInsufficientFunds 100 15 = ErrNoTransactionOfId ∧ 100 ≠ 0
     ∧ transactions Demo.funded !! "0" = None
   ∨ ∃ total, ErrInsufficientFunds 100 15 = ErrInsufficientFunds 100 total
              ∧ total < 100).
Proof.
  assert (Hcall : FundTransaction (C := Demo.consensus) [1; 2] Demo.funded "0" 100
                  = Returned (Demo.funded, Some (ErrInsufficientFunds 100 15))).
  { vm_compute. reflexivity. }
  split; [exact Hcall|].
  exact (FundTransaction_error_leaves_wallet [1; 2] Demo.funded "0" 100
           Demo.funded (ErrInsufficientFunds 100 15) Hcall).
Defined.

(** ** Reset *)

Lemma outputValue_recorded (w : Wallet) (id : OutputID) :
  recorded w id → outputValue w id = Returned (recordedValue w id).
Proof. intros [o Ho]. unfold outputValue, recordedValue. rewrite Ho. done. Qed.

Lemma outputValue_Returned (w : Wallet) (id : OutputID) (v : Currency) :
  outputValue w id = Returned v → v = recordedValue w id.
Proof.
  unfold outputValue, recordedValue.
  destruct (outputs w !! id) as [[[o|]]|]; [|discriminate..].
  intros [= <-]. done.
Qed.

Lemma releaseOne_owned (w : Wallet) (id : OutputID) :
  id ∈ ownedOutputs w → recorded w id →
  releaseOne w id
  = Returned (set_spentOutputs (spentOutputs w ∖ {[id]})
                (set_balance (balance w + recordedValue w id) w)).
Proof.
  intros Hown Hrec. unfold releaseOne.
  rewrite decide_True by done. rewrite outputValue_recorded by done.
  reflexivity.
Qed.

Lemma releaseOne_not_owned (w : Wallet) (id : OutputID) :
  id ∉ ownedOutputs w →
  releaseOne w id = Returned (set_spentOutputs (spentOutputs w ∖ {[id]}) w).
Proof. intros Hown. unfold releaseOne. rewrite decide_False by done. done. Qed.

(** The loop of [Reset] over any sequence of identifiers: each leaves the
    spent outputs, and each that is owned adds its recorded value to the
    balance. *)
Lemma forEach_releaseOne (order : list OutputID) (w : Wallet) :
  (∀ id, id ∈ order → id ∈ ownedOutputs w → recorded w id) →
  forEach releaseOne order w
  = Returned (set_spentOutputs (spentOutputs w ∖ list_to_set order)
                (set_balance
                   (balance w
                    + sumN (recordedValue w
                              <$> filter (λ id, id ∈ ownedOutputs w) order))
                   w)).
Proof.
  revert w. induction order as [|id order IH]; intros w Hrec.
  - simpl. destruct w; unfold set_spentOutputs, set_balance; simpl.
    f_equal. f_equal; [lia | set_solver].
  - rewrite forEach_cons, filter_cons.
    destruct (decide (id ∈ ownedOutputs w)) as [Hown|Hown].
    + rewrite releaseOne_owned by (try apply Hrec; done || by left).
      rewrite bind_Returned, IH.
      2:{ simpl. intros id' ? ?. apply Hrec; [by right | done]. }
      destruct w; unfold set_spentOutputs, set_balance, recordedValue; simpl.
      f_equal. f_equal; [symmetry; apply N.add_assoc | set_solver].
    + rewrite releaseOne_not_owned by done.
      rewrite bind_Returned, IH.
      2:{ simpl. intros id' ? ?. apply Hrec; [by right | done]. }
      destruct w; unfold set_spentOutputs, set_balance, recordedValue; simpl.
      f_equal. f_equal. set_solver.
Qed.

(** C7, as the code has it.  [Reset] releases every reserved output and leaves
    the owned-outputs mapping as it was; to the balance it adds the recorded
    value of every reserved output that is owned.  It returns when each of
    those has a record. *)
Theorem Reset_adds_reserved_owned_values (order : list OutputID) (w : Wallet) :
  enumerates order (spentOutputs w) →
  (∀ id, id ∈ spentOutputs w → id ∈ ownedOutputs w → recorded w id) →
  Reset order w
  = Returned
      (set_spentOutputs ∅
         (set_balance
            (balance w
             + sumN (recordedValue w
                       <$> filter (λ id, id ∈ ownedOutputs w)
                             (elements (spentOutputs w))))
            w),
       None).
Proof.
  unfold enumerates. intros Hperm Hrec. unfold Reset.
  rewrite forEach_releaseOne.
  2:{ intros id Hid. apply Hrec. apply elem_of_elements. by rewrite <- Hperm. }
  simpl. do 2 f_equal.
  assert (Hset : list_to_set order = spentOutputs w).
  { apply set_eq. intros x. rewrite elem_of_list_to_set, Hperm.
    apply elem_of_elements. }
  rewrite Hset.
  replace (spentOutputs w ∖ spentOutputs w) with (∅ : gset OutputID)
    by set_solver.
  f_equal. f_equal. f_equal. apply sumN_Permutation.
  by rewrite Hperm.
Qed.

Lemma Reset_adds_reserved_owned_values_witness :
  enumerates [1; 2] (spentOutputs Demo.after12) ∧
  Reset [1; 2] Demo.after12
  = Returned
      (set_spentOutputs ∅
         (set_balance
            (balance Demo.after12
             + sumN (recordedValue Demo.after12
                       <$> filter (λ id, id ∈ ownedOutputs Demo.after12)
                             (elements (spentOutputs Demo.after12))))
            Demo.after12),
       None).
Proof.
  assert (Henum : enumerates [1; 2] (spentOutputs Demo.after12)).
  { unfold enumerates. vm_compute. apply perm_swap. }
  split; [exact Henum|].
  apply (Reset_adds_reserved_owned_values [1; 2] Demo.after12 Henum).
  intros id Hspent _.
  assert (Hid : id = 1 ∨ id = 2).
  { revert Hspent. unfold Demo.after12. simpl. set_solver. }
  destruct Hid as [-> | ->]; eexists; vm_compute; reflexivity.
Defined.

(** C7, as the claim has it, fails.  Funding 12 from outputs 1 (worth 10) and
    2 (worth 5) reserves both and leaves the balance at 15.  [Reset] then
    releases them and raises the balance to 30; the owned outputs stay as they
    were. *)
Lemma Reset_changes_balance :
  FundTransaction (C := Demo.consensus) [1; 2] Demo.funded "0" 12
  = Returned (Demo.after12, None) ∧
  balance Demo.funded = 15 ∧
  balance Demo.after12 = 15 ∧
  (balance ∘ fst <$> Reset [1; 2] Demo.after12) = Returned 30 ∧
  (ownedOutputs ∘ fst <$> Reset [1; 2] Demo.after12)
  = Returned (ownedOutputs Demo.after12).
Proof. split; [exact DemoFacts.fund12|]. vm_compute. repeat split; reflexivity. Qed.

(** ** Coin selection *)

Lemma valueOf_cons (w : Wallet) (id : OutputID) (l : list OutputID) :
  valueOf w (id :: l) = recordedValue w id + valueOf w l.
Proof. reflexivity. Qed.

Lemma valueOf_app (w : Wallet) (l1 l2 : list OutputID) :
  valueOf w (l1 ++ l2) = valueOf w l1 + valueOf w l2.
Proof. unfold valueOf. rewrite fmap_app. apply sumN_app. Qed.

(** What the loop returns: it has taken a prefix [sel] of the candidates,
    appended one input for each and added up their recorded values; it went
    past an output only while the total was still below the amount, and it
    stopped before the end of the candidates only on reaching the amount. *)
Lemma selectInputs_Returned (w : Wallet) (amount : Currency)
    (order : list OutputID) (total : Currency) (acc : list Input)
    (total' : Currency) (acc' : list Input) :
  selectInputs w amount order total acc = Returned (total', acc') →
  ∃ sel rest,
    candidates w order = sel ++ rest ∧
    acc' = acc ++ (newInput w <$> sel) ∧
    total' = total + valueOf w sel ∧
    (∀ p q, sel = p ++ q → p ≠ [] → q ≠ [] → total + valueOf w p < amount) ∧
    (rest ≠ [] → sel ≠ [] ∧ amount ≤ total').
Proof.
  revert total acc. induction order as [|id order IH]; intros total acc; simpl.
  - intros [= <- <-]. exists [], []. simpl. unfold valueOf; simpl.
    rewrite app_nil_r, N.add_0_r. repeat split; try done.
    intros p q Hpq. symmetry in Hpq. apply app_eq_nil in Hpq as [-> _]. done.
  - unfold candidates. rewrite filter_cons.
    destruct (decide (id ∈ spentOutputs w)) as [Hsp|Hsp].
    + rewrite decide_False by (intros Hn; by apply Hn). apply IH.
    + rewrite decide_True by done.
      destruct (outputValue w id) as [v|] eqn:Hv; simpl; [|discriminate].
      apply outputValue_Returned in Hv. subst v.
      destruct (decide (amount ≤ total + recordedValue w id)) as [Hle|Hgt].
      * intros [= <- <-]. exists [id], (filter (λ id, id ∉ spentOutputs w) order).
        unfold valueOf; simpl. rewrite N.add_0_r. repeat split; try done.
        intros p q Hpq Hp Hq. destruct p as [|x p]; [done|].
        destruct p; destruct q; simpl in Hpq; try done; discriminate.
      * intros Hsel. apply IH in Hsel as (sel & rest & Hc & Hacc & Htot & Hmin & Hend).
        exists (id :: sel), rest. unfold candidates in Hc. rewrite Hc.
        split; [done|]. split.
        { rewrite Hacc, <- app_assoc. done. }
        split.
        { rewrite Htot, valueOf_cons. lia. }
        split.
        { intros p q Hpq Hp Hq. destruct p as [|x p]; [done|].
          simpl in Hpq. injection Hpq as <- Hpq.
          rewrite valueOf_cons. destruct p as [|y p].
          - unfold valueOf; simpl. lia.
          - assert (Hne : y :: p ≠ []) by done.
            specialize (Hmin (y :: p) q Hpq Hne Hq). lia. }
        intros Hrest. destruct (Hend Hrest) as [_ Hle]. split; [done|]. done.
Qed.

(** The pass of lines 206-209 marks exactly the new inputs' outputs spent. *)
Lemma markSpent_fold (len : N) (new : list Input) (ins : list N)
    (s : gset OutputID) :
  fold_left (markSpent len) new (ins, s)
  = (ins ++ replicate (length new) len,
     list_to_set (Input_OutputID <$> new) ∪ s).
Proof.
  revert ins s. induction new as [|i new IH]; intros ins s; simpl.
  - rewrite app_nil_r. f_equal. set_solver.
  - unfold markSpent at 2. simpl. rewrite IH. rewrite <- app_assoc. simpl.
    f_equal. set_solver.
Qed.

Section Fund.

Context `{C : Consensus}.

(** A call of [FundTransaction] that returns without an error has found the
    session, has run the loop to a total that covers the amount, and has
    written the session and the spent outputs; nothing else changed. *)
Lemma FundTransaction_Returned_nil (order : list OutputID) (w : Wallet)
    (id : string) (amount : Currency) (w' : Wallet) :
  FundTransaction order w id amount = Returned (w', None) →
  ∃ ot total new,
    amount ≠ 0 ∧
    transactions w !! id = Some ot ∧
    selectInputs w amount order 0 [] = Returned (total, new) ∧
    amount ≤ total ∧
    w' = set_transactions
           (<[id :=
                {| transaction :=
                     {| Inputs := Inputs (transaction ot) ++ new;
                        MinerFees := MinerFees (transaction ot);
                        Outputs :=
                          if decide (0 < total - amount)
                          then Outputs (transaction ot) ++
                                 [{| Value := total - amount;
                                     SpendHash :=
                                       SpendConditions_CoinAddress (spendConditions w) |}]
                          else Outputs (transaction ot) |};
                   inputs :=
                     inputs ot ++
                       replicate (length new)
                         (N.of_nat (length (Inputs (transaction ot) ++ new))) |}]>
              (transactions w))
           (set_spentOutputs
              (list_to_set (Input_OutputID <$> new) ∪ spentOutputs w) w).
Proof.
  unfold FundTransaction.
  destruct (decide (amount = 0)) as [Hz|Hnz]; [discriminate|].
  destruct (transactions w !! id) as [ot|] eqn:Hid; [|discriminate].
  destruct (selectInputs w amount order 0 []) as [[total new]|] eqn:Hsel; simpl;
    [|discriminate].
  destruct (decide (total < amount)) as [Hlt|Hge]; [discriminate|].
  rewrite markSpent_fold. simpl. intros [= <-].
  exists ot, total, new. repeat split; try done. lia.
Qed.

End Fund.

Section FundTheorems.

Context `{C : Consensus}.

(** C4, as the code has it.  When [FundTransaction] returns without an error,
    the inputs it appended to the session's transaction are outputs it has
    just reserved, and their recorded values add up to at least the amount.
    When they add up to more, one output is appended to the transaction: the
    refund of the difference, paid to the address of the wallet's own spend
    conditions, the ones every input carries; otherwise no output is
    appended.  The call issues no address. *)
Theorem FundTransaction_covers_amount (order : list OutputID) (w : Wallet)
    (id : string) (amount : Currency) (w' : Wallet) :
  FundTransaction order w id amount = Returned (w', None) →
  ∃ ot ot' new,
    transactions w !! id = Some ot ∧
    transactions w' !! id = Some ot' ∧
    Inputs (transaction ot') = Inputs (transaction ot) ++ new ∧
    (∀ i, i ∈ new →
          (Input_OutputID i ∉ spentOutputs w) ∧
          (Input_OutputID i ∈ spentOutputs w') ∧
          (Input_SpendConditions i = spendConditions w)) ∧
    amount ≤ valueOf w (Input_OutputID <$> new) ∧
    Outputs (transaction ot')
    = (if decide (amount < valueOf w (Input_OutputID <$> new))
       then Outputs (transaction ot) ++
              [{| Value := valueOf w (Input_OutputID <$> new) - amount;
                  SpendHash := SpendConditions_CoinAddress (spendConditions w) |}]
       else Outputs (transaction ot)) ∧
    spendableAddresses w' = spendableAddresses w.
Proof.
  intros Hcall.
  apply FundTransaction_Returned_nil in Hcall
    as (ot & total & new & Hnz & Hid & Hsel & Hle & ->).
  apply selectInputs_Returned in Hsel as (sel & rest & Hc & Hnew & Htot & _ & _).
  simpl in Hnew. subst new.
  assert (Hids : Input_OutputID <$> (newInput w <$> sel) = sel).
  { rewrite <- list_fmap_compose. apply list_fmap_id. }
  rewrite Hids. rewrite N.add_0_l in Htot. subst total.
  eexists ot, _, (newInput w <$> sel). simpl.
  split; [done|]. split; [apply lookup_insert_eq|]. simpl.
  split; [done|]. split.
  { intros i Hi. apply list_elem_of_fmap in Hi as (x & -> & Hx). simpl.
    split; [|split; [|done]].
    - assert (Hin : x ∈ candidates w order) by (rewrite Hc; set_solver).
      unfold candidates in Hin. apply list_elem_of_filter in Hin. tauto.
    - set_solver. }
  rewrite !Hids. split; [done|]. split; [|done].
  destruct (decide (0 < valueOf w sel - amount)) as [Hpos|Hpos];
    destruct (decide (amount < valueOf w sel)) as [Hlt|Hlt]; try done; lia.
Qed.

End FundTheorems.

Lemma FundTransaction_covers_amount_witness :
  FundTransaction (C := Demo.consensus) [1; 2] Demo.funded "0" 12
  = Returned (Demo.after12, None) ∧
  ∃ ot ot' new,
    transactions Demo.funded !! "0" = Some ot ∧
    transactions Demo.after12 !! "0" = Some ot' ∧
    Inputs (transaction ot') = Inputs (transaction ot) ++ new ∧
    (∀ i, i ∈ new →
          (Input_OutputID i ∉ spentOutputs Demo.funded) ∧
          (Input_OutputID i ∈ spentOutputs Demo.after12) ∧
          (Input_SpendConditions i = spendConditions Demo.funded)) ∧
    12 ≤ valueOf Demo.funded (Input_OutputID <$> new) ∧
    Outputs (transaction ot')
    = (if decide (12 < valueOf Demo.funded (Input_OutputID <$> new))
       then Outputs (transaction ot) ++
              [{| Value := valueOf Demo.funded (Input_OutputID <$> new) - 12;
                  SpendHash :=
                    SpendConditions_CoinAddress (Consensus := Demo.consensus)
                      (spendConditions Demo.funded) |}]
       else Outputs (transaction ot)) ∧
    spendableAddresses Demo.after12 = spendableAddresses Demo.funded.
Proof.
  split; [exact DemoFacts.fund12|].
  exact (FundTransaction_covers_amount (C := Demo.consensus) [1; 2] Demo.funded
           "0" 12 Demo.after12 DemoFacts.fund12).
Defined.

(** C4, as the claim has it, fails.  Funding 12 from outputs worth 10 and 5
    appends the refund of 3; it is paid to address 7, the address of the spend
    conditions the wallet puts on every input, and the call has issued no
    address: the wallet holds no spendable address before or after. *)
Lemma FundTransaction_refund_not_fresh :
  FundTransaction (C := Demo.consensus) [1; 2] Demo.funded "0" 12
  = Returned (Demo.after12, None) ∧
  (Outputs ∘ transaction <$> transactions Demo.after12 !! "0")
  = Some [{| Value := 3; SpendHash := 7 |}] ∧
  SpendConditions_CoinAddress (Consensus := Demo.consensus)
    (spendConditions Demo.funded) = 7 ∧
  ¬ freshlyIssued Demo.funded Demo.after12 7.
Proof.
  split; [exact DemoFacts.fund12|].
  split; [vm_compute; reflexivity|].
  split; [vm_compute; reflexivity|].
  intros [_ [x Hx]]. vm_compute in Hx. discriminate.
Qed.

(** ** The order of coin selection *)

Lemma candidates_enumerate (w : Wallet) (order : list OutputID) :
  enumerates order (ownedOutputs w) →
  candidates w order ≡ₚ elements (ownedOutputs w ∖ spentOutputs w).
Proof.
  unfold enumerates, candidates. intros Hperm.
  apply NoDup_Permutation.
  - apply NoDup_filter. rewrite Hperm. apply NoDup_elements.
  - apply NoDup_elements.
  - intros x. rewrite list_elem_of_filter, Hperm, !elem_of_elements.
    set_solver.
Qed.

Section Selection.

Context `{C : Consensus}.

(** C9, as the code has it.  The loop takes the owned outputs in the order in
    which the map yields them, whatever that is.  Of the ones not reserved,
    in that order, a call that returns without an error has selected the
    shortest prefix whose recorded values reach the amount, and has appended
    its inputs in that order. *)
Theorem FundTransaction_selects_in_yield_order (order : list OutputID)
    (w : Wallet) (id : string) (amount : Currency) (w' : Wallet) :
  enumerates order (ownedOutputs w) →
  FundTransaction order w id amount = Returned (w', None) →
  ∃ sel rest,
    candidates w order = sel ++ rest ∧
    candidates w order ≡ₚ elements (ownedOutputs w ∖ spentOutputs w) ∧
    appendedInputs w w' id (newInput w <$> sel) ∧
    amount ≤ valueOf w sel ∧
    (∀ p q, sel = p ++ q → q ≠ [] → valueOf w p < amount).
Proof.
  intros Henum Hcall.
  apply FundTransaction_Returned_nil in Hcall
    as (ot & total & new & Hnz & Hid & Hsel & Hle & ->).
  apply selectInputs_Returned in Hsel
    as (sel & rest & Hc & Hnew & Htot & Hmin & _).
  simpl in Hnew. subst new. rewrite N.add_0_l in Htot. subst total.
  exists sel, rest. split; [done|].
  split; [by apply candidates_enumerate|]. split.
  { eexists ot, _. split; [done|]. split; [apply lookup_insert_eq|]. done. }
  split; [done|].
  intros p q Hpq Hq. destruct p as [|x p].
  - unfold valueOf; simpl. lia.
  - assert (Hne : x :: p ≠ []) by done.
    specialize (Hmin (x :: p) q Hpq Hne Hq). lia.
Qed.

End Selection.

Lemma FundTransaction_selects_in_yield_order_witness :
  enumerates [2; 1] (ownedOutputs Demo.funded) ∧
  FundTransaction (C := Demo.consensus) [2; 1] Demo.funded "0" 5
  = Returned (Demo.after5_from2, None) ∧
  ∃ sel rest,
    candidates Demo.funded [2; 1] = sel ++ rest ∧
    candidates Demo.funded [2; 1]
      ≡ₚ elements (ownedOutputs Demo.funded ∖ spentOutputs Demo.funded) ∧
    appendedInputs Demo.funded Demo.after5_from2 "0"
      (newInput Demo.funded <$> sel) ∧
    5 ≤ valueOf Demo.funded sel ∧
    (∀ p q, sel = p ++ q → q ≠ [] → valueOf Demo.funded p < 5).
Proof.
  split; [exact DemoFacts.yields_2_1|].
  split; [exact DemoFacts.fund5_from2|].
  exact (FundTransaction_selects_in_yield_order (C := Demo.consensus) [2; 1]
           Demo.funded "0" 5 Demo.after5_from2 DemoFacts.yields_2_1
           DemoFacts.fund5_from2).
Defined.

(** C9, as the claim has it, fails.  Outputs 1 (worth 10) and 2 (worth 5)
    are owned and free, and 5 are to be funded.  The map may yield 2 before 1,
    and then the call selects output 2; in ascending order of identifiers the
    same call from the same wallet selects output 1 and refunds 5. *)
Lemma FundTransaction_follows_map_order :
  enumerates [2; 1] (ownedOutputs Demo.funded) ∧
  ascending Demo.funded = [1; 2] ∧
  FundTransaction (C := Demo.consensus) [2; 1] Demo.funded "0" 5
  = Returned (Demo.after5_from2, None) ∧
  FundTransaction (C := Demo.consensus) (ascending Demo.funded) Demo.funded "0" 5
  = Returned (Demo.after5_from1, None) ∧
  (Inputs ∘ transaction <$> transactions Demo.after5_from2 !! "0")
  = Some [newInput Demo.funded 2] ∧
  (Inputs ∘ transaction <$> transactions Demo.after5_from1 !! "0")
  = Some [newInput Demo.funded 1].
Proof.
  split; [exact DemoFacts.yields_2_1|].
  repeat split; vm_compute; reflexivity.
Qed.

(** ** Reservations last until Reset *)

Section Reservations.

Context `{C : Consensus}.
Variable ca : CoinAddress.

(** [Update] does not change the spent outputs map. *)
Lemma Update_spentOutputs (w : Wallet) (rewound applied : list Block)
    (w' : Wallet) (e : option error) :
  Update ca w rewound applied = Returned (w', e) →
  spentOutputs w' = spentOutputs w.
Proof. by apply (Update_keeps ca spentOutputs). Qed.

Lemma FundTransaction_Returned_error (order : list OutputID) (w : Wallet)
    (id : string) (amount : Currency) (w' : Wallet) (e : error) :
  FundTransaction order w id amount = Returned (w', Some e) → w' = w.
Proof.
  unfold FundTransaction. case_decide; [by intros [= <-]|].
  destruct (transactions w !! id); [|by intros [= <-]].
  destruct (selectInputs w amount order 0 []) as [[total new]|]; simpl;
    [|discriminate].
  case_decide; [by intros [= <-]|discriminate].
Qed.

(** A call other than [Reset] keeps every reservation. *)
Lemma step_keeps_reserved (w : Wallet) (c : call) (w' : Wallet) :
  releases c = false → step ca w c = Returned w' →
  spentOutputs w ⊆ spentOutputs w'.
Proof.
  intros Hc. destruct c; simpl in *; try discriminate.
  - destruct (Update ca w rewound applied) as [[w1 e]|] eqn:E; [|discriminate].
    intros [= <-]. apply Update_spentOutputs in E. simpl. by rewrite E.
  - intros [= <-]. done.
  - unfold Wallet_CoinAddress. destruct keys as [[sk pk]|]; intros [= <-]; done.
  - unfold RegisterTransaction. simpl.
    destruct (transactions w !! Itoa (transactionCounter w)); [|discriminate].
    intros [= <-]. done.
  - destruct (FundTransaction order w id amount) as [[w1 [e|]]|] eqn:E;
      [| |discriminate]; intros [= <-]; simpl.
    + apply FundTransaction_Returned_error in E. by subst.
    + apply FundTransaction_Returned_nil in E as (? & ? & ? & _ & _ & _ & _ & ->).
      simpl. set_solver.
  - unfold AddMinerFee. destruct (transactions w !! id); intros [= <-]; done.
  - unfold AddOutput. destruct (transactions w !! id); intros [= <-]; done.
Qed.

Lemma run_keeps_reserved (cs : list call) (w w' : Wallet) :
  Forall (λ c, releases c = false) cs → run ca cs w = Returned w' →
  spentOutputs w ⊆ spentOutputs w'.
Proof.
  unfold run. intros Hcs. revert w.
  induction Hcs as [|c cs Hc _ IH]; intros w; simpl.
  - intros [= <-]. done.
  - destruct (step ca w c) as [w1|] eqn:E; simpl; [|discriminate].
    intros Hrest. apply IH in Hrest. apply step_keeps_reserved in E; [|done].
    set_solver.
Qed.

(** What a successful call appended is one input for each selected
    candidate. *)
Lemma FundTransaction_appended (order : list OutputID) (w : Wallet)
    (id : string) (amount : Currency) (w' : Wallet) (new : list Input) :
  FundTransaction order w id amount = Returned (w', None) →
  appendedInputs w w' id new →
  ownedOutputs w' = ownedOutputs w ∧
  ∃ sel rest, candidates w order = sel ++ rest ∧ new = newInput w <$> sel ∧
              spentOutputs w' = list_to_set sel ∪ spentOutputs w.
Proof.
  intros Hcall (ot0 & ot' & Hid0 & Hid' & Happ).
  apply FundTransaction_Returned_nil in Hcall
    as (ot & total & new' & _ & Hid & Hsel & _ & ->).
  apply selectInputs_Returned in Hsel as (sel & rest & Hc & Hnew & _ & _ & _).
  simpl in Hnew. subst new'. split; [done|].
  exists sel, rest. split; [done|].
  simpl in Hid'. rewrite lookup_insert_eq in Hid'. injection Hid' as <-.
  simpl in Happ. rewrite Hid in Hid0. injection Hid0 as <-.
  apply app_inv_head in Happ. split; [done|]. simpl.
  rewrite <- list_fmap_compose.
  replace (Input_OutputID ∘ newInput w <$> sel) with sel; [done|].
  symmetry. apply list_fmap_id.
Qed.

(** C3.  The outputs a call of [FundTransaction] selects were free, are
    reserved after the call and are still in the owned-outputs mapping, each
    selected once.  As long as no [Reset] intervenes, whatever else is called,
    a later call of [FundTransaction], for any session, selects none of
    them. *)
Theorem FundTransaction_reserves_once
    (order1 : list OutputID) (w : Wallet) (id1 : string) (amount1 : Currency)
    (w1 : Wallet) (new1 : list Input) (cs : list call) (w2 : Wallet)
    (order2 : list OutputID) (id2 : string) (amount2 : Currency)
    (w3 : Wallet) (new2 : list Input) :
  enumerates order1 (ownedOutputs w) →
  FundTransaction order1 w id1 amount1 = Returned (w1, None) →
  appendedInputs w w1 id1 new1 →
  Forall (λ c, releases c = false) cs →
  run ca cs w1 = Returned w2 →
  FundTransaction order2 w2 id2 amount2 = Returned (w3, None) →
  appendedInputs w2 w3 id2 new2 →
  ownedOutputs w1 = ownedOutputs w ∧
  NoDup (Input_OutputID <$> new1) ∧
  (∀ i, i ∈ new1 →
        (Input_OutputID i ∉ spentOutputs w) ∧
        (Input_OutputID i ∈ spentOutputs w1) ∧
        (Input_OutputID i ∈ ownedOutputs w1)) ∧
  (∀ i1 i2, i1 ∈ new1 → i2 ∈ new2 → Input_OutputID i1 ≠ Input_OutputID i2).
Proof.
  intros Henum Hcall1 Happ1 Hcs Hrun Hcall2 Happ2.
  destruct (FundTransaction_appended _ _ _ _ _ _ Hcall1 Happ1)
    as (Hown & sel1 & rest1 & Hc1 & -> & Hsp1).
  destruct (FundTransaction_appended _ _ _ _ _ _ Hcall2 Happ2)
    as (_ & sel2 & rest2 & Hc2 & -> & _).
  pose proof (run_keeps_reserved _ _ _ Hcs Hrun) as Hkeep.
  assert (Hids : ∀ w0 (l : list OutputID), Input_OutputID <$> (newInput w0 <$> l) = l).
  { intros w0 l. rewrite <- list_fmap_compose. apply list_fmap_id. }
  assert (Hcand1 : ∀ x, x ∈ sel1 → (x ∉ spentOutputs w) ∧ (x ∈ ownedOutputs w)).
  { intros x Hx. assert (Hin : x ∈ candidates w order1) by (rewrite Hc1; set_solver).
    unfold candidates in Hin. apply list_elem_of_filter in Hin as [Hfree Hin].
    split; [done|]. unfold enumerates in Henum. rewrite Henum in Hin.
    by apply elem_of_elements. }
  split; [done|]. split.
  { rewrite Hids.
    assert (Hnd : NoDup (candidates w order1)).
    { unfold candidates. apply NoDup_filter. unfold enumerates in Henum.
      rewrite Henum. apply NoDup_elements. }
    rewrite Hc1 in Hnd. apply NoDup_app in Hnd. tauto. }
  split.
  { intros i Hi. apply list_elem_of_fmap in Hi as (x & -> & Hx). simpl.
    destruct (Hcand1 x Hx). rewrite Hown, Hsp1. set_solver. }
  intros i1 i2 Hi1 Hi2.
  apply list_elem_of_fmap in Hi1 as (x1 & -> & Hx1).
  apply list_elem_of_fmap in Hi2 as (x2 & -> & Hx2). simpl. intros ->.
  assert (Hin : x2 ∈ candidates w2 order2) by (rewrite Hc2; set_solver).
  unfold candidates in Hin. apply list_elem_of_filter in Hin as [Hfree _].
  apply Hfree, Hkeep. rewrite Hsp1. set_solver.
Qed.

End Reservations.

Lemma FundTransaction_reserves_once_witness :
  ownedOutputs Demo.after10 = ownedOutputs Demo.funded ∧
  NoDup (Input_OutputID <$> [newInput Demo.funded 1]) ∧
  (∀ i, i ∈ [newInput Demo.funded 1] →
        (Input_OutputID i ∉ spentOutputs Demo.funded) ∧
        (Input_OutputID i ∈ spentOutputs Demo.after10) ∧
        (Input_OutputID i ∈ ownedOutputs Demo.after10)) ∧
  (∀ i1 i2, i1 ∈ [newInput Demo.funded 1] → i2 ∈ [newInput Demo.funded 2] →
            Input_OutputID i1 ≠ Input_OutputID i2).
Proof.
  exact (FundTransaction_reserves_once (C := Demo.consensus) Demo.ca
           [1; 2] Demo.funded "0" 10 Demo.after10 [newInput Demo.funded 1]
           Demo.between Demo.withFee
           [1; 2] "0" 5 Demo.after5 [newInput Demo.funded 2]
           DemoFacts.yields_1_2 DemoFacts.fund10 DemoFacts.appended10
           DemoFacts.quiet DemoFacts.ran DemoFacts.fund5
           DemoFacts.appended5).
Defined.


(** ** What each method leaves alone *)

Section Frames.

Context `{C : Consensus}.
Variable ca : CoinAddress.

(** X1.  [Update] writes the balance, the owned outputs and the output
    records and nothing else: the spent outputs, the sessions, the spendable
    addresses, the counter and the spend conditions are as before, and the
    error it returns is nil. *)
Theorem Update_writes_ledger_only (w : Wallet) (rewound applied : list Block)
    (w' : Wallet) (e : option error) :
  Update ca w rewound applied = Returned (w', e) →
  spentOutputs w' = spentOutputs w ∧
  transactions w' = transactions w ∧
  spendableAddresses w' = spendableAddresses w ∧
  transactionCounter w' = transactionCounter w ∧
  spendConditions w' = spendConditions w ∧
  e = None.
Proof.
  intros Hup.
  split; [eapply (Update_keeps ca spentOutputs); first [exact Hup | done]|].
  split; [eapply (Update_keeps ca transactions); first [exact Hup | done]|].
  split; [eapply (Update_keeps ca spendableAddresses); first [exact Hup | done]|].
  split; [eapply (Update_keeps ca transactionCounter); first [exact Hup | done]|].
  split; [eapply (Update_keeps ca spendConditions); first [exact Hup | done]|].
  revert Hup. unfold Update.
  destruct (rewindBlocks ca rewound w) as [w1|]; simpl; [|discriminate].
  destruct (applyBlocks ca applied w1) as [w2|]; simpl; [|discriminate].
  by intros [= _ <-].
Qed.

(** X2.  [FundTransaction] never writes the balance: whether it returns an
    error or not, the balance, the owned outputs, the output records, the
    spendable addresses, the counter and the spend conditions are as
    before. *)
Theorem FundTransaction_keeps_balance (order : list OutputID) (w : Wallet)
    (id : string) (amount : Currency) (w' : Wallet) (e : option error) :
  FundTransaction order w id amount = Returned (w', e) →
  balance w' = balance w ∧
  ownedOutputs w' = ownedOutputs w ∧
  outputs w' = outputs w ∧
  spendableAddresses w' = spendableAddresses w ∧
  transactionCounter w' = transactionCounter w ∧
  spendConditions w' = spendConditions w.
Proof.
  destruct e as [e|]; intros Hcall.
  - apply FundTransaction_Returned_error in Hcall. by subst.
  - apply FundTransaction_Returned_nil in Hcall
      as (ot & total & new & _ & _ & _ & _ & ->).
    done.
Qed.

(** X3.  No call adds or removes a session: whatever is called, the
    session table has the same ids after the call as before. *)
Theorem step_keeps_session_ids (w : Wallet) (c : call) (w' : Wallet) :
  step ca w c = Returned w' →
  dom (transactions w') = dom (transactions w).
Proof.
  assert (Hins : ∀ (m : gmap string openTransaction) k ot ot',
             m !! k = Some ot → dom (<[k := ot']> m) = dom m).
  { intros m k ot ot' Hk. rewrite dom_insert_L. apply elem_of_dom_2 in Hk.
    set_solver. }
  destruct c; simpl.
  - destruct (Update ca w rewound applied) as [[w1 e]|] eqn:E; [|discriminate].
    intros [= <-]. simpl.
    apply (Update_keeps ca transactions) in E; [|done..]. by rewrite E.
  - unfold Reset.
    destruct (forEach releaseOne order w) as [w1|] eqn:E; [|discriminate].
    intros [= <-]. simpl.
    assert (Hsame : transactions w1 = transactions w).
    { revert E.
      apply (forEach_inv (λ w', transactions w' = transactions w)); [|done].
      intros s id s' Hs. unfold releaseOne. case_decide.
      - destruct (outputValue s id); simpl; [|discriminate]. by intros [= <-].
      - by intros [= <-]. }
    by rewrite Hsame.
  - by intros [= <-].
  - unfold Wallet_CoinAddress. destruct keys as [[sk pk]|]; by intros [= <-].
  - unfold RegisterTransaction. simpl.
    destruct (transactions w !! Itoa (transactionCounter w)) as [ot|] eqn:Hk;
      [|discriminate].
    intros [= <-]. simpl. by apply (Hins _ _ ot).
  - destruct (FundTransaction order w id amount) as [[w1 [e|]]|] eqn:E;
      [| |discriminate]; intros [= <-]; simpl.
    + apply FundTransaction_Returned_error in E. by subst.
    + apply FundTransaction_Returned_nil in E
        as (ot & total & new & _ & Hid & _ & _ & ->).
      simpl. by apply (Hins _ _ ot).
  - unfold AddMinerFee. destruct (transactions w !! id) as [ot|] eqn:Hid;
      intros [= <-]; simpl; [by apply (Hins _ _ ot)|done].
  - unfold AddOutput. destruct (transactions w !! id) as [ot|] eqn:Hid;
      intros [= <-]; simpl; [by apply (Hins _ _ ot)|done].
Qed.

(** X4.  Adding a miner fee and adding an output commute, on one session or
    on two: either order of the two calls leaves the same wallet. *)
Theorem AddMinerFee_AddOutput_commute (w : Wallet) (id : string)
    (fee : Currency) (id' : string) (amount : Currency) (dest : CoinAddress) :
  run ca [CallAddMinerFee id fee; CallAddOutput id' amount dest] w
  = run ca [CallAddOutput id' amount dest; CallAddMinerFee id fee] w.
Proof.
  unfold run. simpl. unfold AddMinerFee, AddOutput.
  destruct (decide (id = id')) as [<-|Hne].
  - destruct (transactions w !! id) as [ot|] eqn:Hid; simpl;
      rewrite ?Hid, ?lookup_insert_eq; simpl; [|done].
    rewrite !insert_insert_eq. done.
  - destruct (transactions w !! id) as [ot|] eqn:Hid;
      destruct (transactions w !! id') as [ot'|] eqn:Hid'; simpl;
      rewrite ?lookup_insert_ne by done; rewrite ?Hid, ?Hid'; simpl;
      try done.
    unfold set_transactions. simpl. do 2 f_equal. by apply insert_insert_ne.
Qed.

End Frames.

(** ** Wallets reached from a fresh one, continued *)

Section Unfunded.

Context `{C : Consensus}.
Variable ca : CoinAddress.

Lemma forEach_releaseOne_Returned (order : list OutputID) (w w' : Wallet) :
  forEach releaseOne order w = Returned w' →
  spentOutputs w' = spentOutputs w ∖ list_to_set order ∧
  ownedOutputs w' = ownedOutputs w ∧
  outputs w' = outputs w ∧
  transactions w' = transactions w ∧
  spendableAddresses w' = spendableAddresses w ∧
  transactionCounter w' = transactionCounter w ∧
  spendConditions w' = spendConditions w.
Proof.
  revert w. induction order as [|id order IH]; intros w.
  - simpl. intros [= <-]. repeat split; try done. set_solver.
  - rewrite forEach_cons.
    destruct (releaseOne w id) as [w1|] eqn:E; [|discriminate].
    rewrite bind_Returned. intros Hrest.
    apply IH in Hrest as (Hsp & How & Hout & Htx & Hsa & Hct & Hsc).
    assert (H1 : spentOutputs w1 = spentOutputs w ∖ {[id]} ∧
                 ownedOutputs w1 = ownedOutputs w ∧ outputs w1 = outputs w ∧
                 transactions w1 = transactions w ∧
                 spendableAddresses w1 = spendableAddresses w ∧
                 transactionCounter w1 = transactionCounter w ∧
                 spendConditions w1 = spendConditions w).
    { revert E. unfold releaseOne. case_decide.
      - destruct (outputValue w id); simpl; [|discriminate]. by intros [= <-].
      - by intros [= <-]. }
    destruct H1 as (Hsp1 & How1 & Hout1 & Htx1 & Hsa1 & Hct1 & Hsc1).
    repeat split; try congruence.
    rewrite Hsp, Hsp1. set_solver.
Qed.

(** While the session table is empty no call reserves an output. *)
Lemma step_no_reservations (w : Wallet) (c : call) (w' : Wallet) :
  transactions w = ∅ → spentOutputs w = ∅ →
  step ca w c = Returned w' → spentOutputs w' = ∅.
Proof.
  intros Htx Hsp. destruct c; simpl.
  - destruct (Update ca w rewound applied) as [[w1 e]|] eqn:E; [|discriminate].
    intros [= <-]. simpl.
    apply (Update_keeps ca spentOutputs) in E; [|done..]. congruence.
  - unfold Reset.
    destruct (forEach releaseOne order w) as [w1|] eqn:E; [|discriminate].
    intros [= <-]. simpl.
    apply forEach_releaseOne_Returned in E as (E & _). rewrite E, Hsp.
    set_solver.
  - by intros [= <-].
  - unfold Wallet_CoinAddress. destruct keys as [[sk pk]|]; by intros [= <-].
  - unfold RegisterTransaction. simpl. rewrite Htx, lookup_empty. discriminate.
  - unfold FundTransaction. rewrite Htx, lookup_empty.
    case_decide; by intros [= <-].
  - unfold AddMinerFee. rewrite Htx, lookup_empty. by intros [= <-].
  - unfold AddOutput. rewrite Htx, lookup_empty. by intros [= <-].
Qed.

(** X5.  Whatever is called on a fresh wallet, and in whatever order, the
    wallet never gets a session and never reserves an output.  On every
    wallet reached this way [FundTransaction], [AddMinerFee] and [AddOutput]
    return an error and [RegisterTransaction] panics. *)
Theorem fresh_wallet_never_funds (cs : list call)
    (outs : gmap OutputID knownOutput) (sc : SpendConditions) (w : Wallet) :
  run ca cs (New outs sc) = Returned w →
  transactions w = ∅ ∧
  spentOutputs w = ∅ ∧
  (∀ order id amount,
     FundTransaction order w id amount
     = Returned (w, Some (if decide (amount = 0) then ErrFundZero
                          else ErrNoTransactionOfId))) ∧
  (∀ id fee, AddMinerFee w id fee = Returned (w, Some ErrNoTransactionFound)) ∧
  (∀ id amount dest,
     AddOutput w id amount dest = Returned (w, Some ErrNoTransactionFound)) ∧
  (∀ t, RegisterTransaction w t = Panicked).
Proof.
  intros Hrun.
  assert (Hinv : transactions w = ∅ ∧ spentOutputs w = ∅).
  { revert Hrun. unfold run.
    apply (forEach_inv (λ w', transactions w' = ∅ ∧ spentOutputs w' = ∅));
      [|done].
    intros s c s' [Htx Hsp] Hc. split.
    - by apply (step_no_sessions ca s c).
    - by apply (step_no_reservations s c). }
  destruct Hinv as [Htx Hsp]. split; [done|]. split; [done|].
  split; [|split; [|split]].
  - intros order id amount. unfold FundTransaction.
    rewrite Htx, lookup_empty. by case_decide.
  - intros id fee. unfold AddMinerFee. by rewrite Htx, lookup_empty.
  - intros id amount dest. unfold AddOutput. by rewrite Htx, lookup_empty.
  - intros t. unfold RegisterTransaction. simpl. by rewrite Htx, lookup_empty.
Qed.

End Unfunded.

(** ** Reset, whatever the records *)

(** X6.  A [Reset] that returns has released every reservation and written
    nothing but the balance and the spent outputs: the owned outputs, the
    records and the sessions are as before, so an output it released is still
    an input of the transaction that reserved it, and every owned output can
    be selected again. *)
Theorem Reset_releases_all (order : list OutputID) (w w' : Wallet)
    (e : option error) :
  enumerates order (spentOutputs w) →
  Reset order w = Returned (w', e) →
  e = None ∧
  spentOutputs w' = ∅ ∧
  ownedOutputs w' = ownedOutputs w ∧
  outputs w' = outputs w ∧
  transactions w' = transactions w ∧
  (∀ order', candidates w' order' = order').
Proof.
  unfold enumerates, Reset. intros Hperm.
  destruct (forEach releaseOne order w) as [w1|] eqn:E; [|discriminate].
  simpl. intros [= <- <-].
  apply forEach_releaseOne_Returned in E as (Hsp & How & Hout & Htx & _).
  assert (Hnone : spentOutputs w1 = ∅).
  { rewrite Hsp. apply set_eq. intros x.
    rewrite elem_of_difference, elem_of_list_to_set, Hperm, elem_of_elements.
    set_solver. }
  repeat split; try done.
  intros order'. unfold candidates. rewrite Hnone.
  induction order' as [|x l IH]; [done|].
  rewrite filter_cons, decide_True by set_solver. by rewrite IH.
Qed.

(** X7.  [Reset] panics exactly when one of the outputs it releases is owned
    and has no record with an output: nothing guards line 117 but the test
    that the output is owned. *)
Theorem Reset_panics_iff (order : list OutputID) (w : Wallet) :
  Reset order w = Panicked ↔
  ∃ id, id ∈ order ∧ id ∈ ownedOutputs w ∧ ¬ recorded w id.
Proof.
  assert (Hloop : ∀ order w,
             forEach releaseOne order w = Panicked ↔
             ∃ id, id ∈ order ∧ id ∈ ownedOutputs w ∧ ¬ recorded w id).
  { clear. intros order. induction order as [|id order IH]; intros w.
    - simpl. split; [discriminate|]. intros (id & Hin & _).
      by apply not_elem_of_nil in Hin.
    - rewrite forEach_cons.
      assert (Hnext : ∀ w1,
                 ownedOutputs w1 = ownedOutputs w → outputs w1 = outputs w →
                 (forEach releaseOne order w1 = Panicked ↔
                  ∃ id', id' ∈ order ∧ id' ∈ ownedOutputs w ∧ ¬ recorded w id')).
      { intros w1 How Hout. rewrite IH. unfold recorded.
        by rewrite How, Hout. }
      destruct (decide (id ∈ ownedOutputs w)) as [Hown|Hown].
      + destruct (outputs w !! id) as [[[o|]]|] eqn:Hrec.
        * rewrite releaseOne_owned by (done || by exists o).
          rewrite bind_Returned, Hnext by done.
          split; intros (id' & Hin & Hrest).
          -- exists id'. split; [by right|done].
          -- apply elem_of_cons in Hin as [->|Hin]; [|by exists id'].
             destruct Hrest as [_ Hno]. exfalso. apply Hno. by exists o.
        * split; [intros _|intros _].
          -- exists id. split; [by left|]. split; [done|].
             intros [o Ho]. congruence.
          -- unfold releaseOne, outputValue. rewrite decide_True, Hrec by done.
             done.
        * split; [intros _|intros _].
          -- exists id. split; [by left|]. split; [done|].
             intros [o Ho]. congruence.
          -- unfold releaseOne, outputValue. rewrite decide_True, Hrec by done.
             done.
      + rewrite releaseOne_not_owned by done.
        rewrite bind_Returned, Hnext by done.
        split; intros (id' & Hin & Hrest).
        * exists id'. split; [by right|done].
        * apply elem_of_cons in Hin as [->|Hin]; [|by exists id'].
          by destruct Hrest. }
  unfold Reset. rewrite <- Hloop.
  destruct (forEach releaseOne order w); simpl; split; done.
Qed.

(** ** When FundTransaction succeeds *)

Lemma valueOf_Permutation (w : Wallet) (l1 l2 : list OutputID) :
  l1 ≡ₚ l2 → valueOf w l1 = valueOf w l2.
Proof. intros Hp. unfold valueOf. apply sumN_Permutation. by rewrite Hp. Qed.

(** The loop returns when every candidate has a record. *)
Lemma selectInputs_total (w : Wallet) (amount : Currency)
    (order : list OutputID) (total : Currency) (acc : list Input) :
  (∀ id, id ∈ candidates w order → recorded w id) →
  ∃ total' acc', selectInputs w amount order total acc = Returned (total', acc').
Proof.
  revert total acc. induction order as [|id order IH]; intros total acc Hrec.
  - simpl. eauto.
  - simpl. unfold candidates in Hrec. rewrite filter_cons in Hrec.
    destruct (decide (id ∈ spentOutputs w)) as [Hsp|Hsp].
    + rewrite decide_False in Hrec by (intros Hn; by apply Hn). by apply IH.
    + rewrite decide_True in Hrec by done.
      rewrite outputValue_recorded by (apply Hrec; by left). simpl.
      case_decide; [eauto|]. apply IH. intros id' Hid'. apply Hrec. by right.
Qed.

(** The loop reads the spent outputs, the records and the spend conditions
    and nothing else. *)
Lemma selectInputs_ext (w1 w2 : Wallet) (amount : Currency)
    (order : list OutputID) (total : Currency) (acc : list Input) :
  spentOutputs w1 = spentOutputs w2 → outputs w1 = outputs w2 →
  spendConditions w1 = spendConditions w2 →
  selectInputs w1 amount order total acc = selectInputs w2 amount order total acc.
Proof.
  intros Hsp Hout Hsc. revert total acc.
  induction order as [|id order IH]; intros total acc; simpl; [done|].
  rewrite Hsp. case_decide; [apply IH|].
  unfold outputValue, newInput. rewrite Hout, Hsc.
  destruct (outputs w2 !! id) as [[[o|]]|]; simpl; try done.
  case_decide; [done|apply IH].
Qed.

Section FundCriterion.

Context `{C : Consensus}.

(** X8.  Whether [FundTransaction] finds the funds does not depend on the
    order in which the map yields the outputs.  For a known session, a
    non-zero amount and records for all free owned outputs, the call succeeds
    exactly when the free owned outputs are worth at least the amount; when
    they are worth less it returns the insufficient-funds error, which
    reports their whole value, and leaves the wallet as it was. *)
Theorem FundTransaction_succeeds_iff_covered (order : list OutputID)
    (w : Wallet) (id : string) (amount : Currency) :
  enumerates order (ownedOutputs w) →
  (∀ o, o ∈ ownedOutputs w → o ∉ spentOutputs w → recorded w o) →
  amount ≠ 0 →
  is_Some (transactions w !! id) →
  let free := valueOf w (elements (ownedOutputs w ∖ spentOutputs w)) in
  if decide (amount ≤ free)
  then ∃ w', FundTransaction order w id amount = Returned (w', None)
  else FundTransaction order w id amount
       = Returned (w, Some (ErrInsufficientFunds amount free)).
Proof.
  intros Henum Hrec Hnz [ot Hid] free.
  pose proof (candidates_enumerate w order Henum) as Hperm.
  assert (Hfree : valueOf w (candidates w order) = free).
  { by apply valueOf_Permutation. }
  destruct (selectInputs_total w amount order 0 []) as (total & new & Hsel).
  { intros o Ho. rewrite Hperm in Ho. apply elem_of_elements in Ho.
    apply Hrec; set_solver. }
  destruct (selectInputs_Returned _ _ _ _ _ _ _ Hsel)
    as (sel & rest & Hc & _ & Htot & _ & Hend).
  rewrite N.add_0_l in Htot. rewrite Hc, valueOf_app in Hfree.
  clearbody free.
  destruct (decide (amount ≤ free)) as [Hcov|Hcov].
  - assert (Hle : ¬ total < amount).
    { destruct rest as [|r rest].
      - unfold valueOf in Hfree at 2. simpl in Hfree. lia.
      - destruct Hend as [_ Hle]; [done|]. lia. }
    unfold FundTransaction. rewrite (decide_False _ _ Hnz), Hid, Hsel. simpl.
    rewrite (decide_False _ _ Hle). eauto.
  - assert (Hall : rest = []).
    { destruct rest as [|r rest]; [done|]. destruct Hend as [_ Hle]; [done|].
      lia. }
    subst rest. unfold valueOf in Hfree at 2. simpl in Hfree.
    assert (Hlt : total < amount) by lia.
    assert (Heq : total = free) by lia.
    unfold FundTransaction. rewrite (decide_False _ _ Hnz), Hid, Hsel. simpl.
    rewrite (decide_True _ _ Hlt). by rewrite Heq.
Qed.

(** X9.  The indices a successful call appends to the session's [inputs] are
    all the same number, the count of inputs the transaction has after the
    call: one for each new input, none of them the position of an input. *)
Theorem FundTransaction_records_input_count (order : list OutputID)
    (w : Wallet) (id : string) (amount : Currency) (w' : Wallet) :
  FundTransaction order w id amount = Returned (w', None) →
  ∃ ot ot' new,
    transactions w !! id = Some ot ∧
    transactions w' !! id = Some ot' ∧
    Inputs (transaction ot') = Inputs (transaction ot) ++ new ∧
    inputs ot'
    = inputs ot ++
      replicate (length new) (N.of_nat (length (Inputs (transaction ot')))) ∧
    Inputs (transaction ot') !! length (Inputs (transaction ot')) = None.
Proof.
  intros Hcall.
  apply FundTransaction_Returned_nil in Hcall
    as (ot & total & new & _ & Hid & _ & _ & ->).
  eexists ot, _, new. split; [done|]. split; [apply lookup_insert_eq|].
  simpl. repeat split. by apply lookup_ge_None_2.
Qed.

(** X10.  An output released by [Reset] can be selected a second time.  From
    a wallet without reservations, a call of [FundTransaction] that succeeds
    succeeds again, with the same arguments, after a [Reset], and appends the
    same inputs to the transaction once more. *)
Theorem FundTransaction_again_after_Reset (order : list OutputID) (w : Wallet)
    (id : string) (amount : Currency) (w1 : Wallet) (new : list Input)
    (order' : list OutputID) (w2 : Wallet) (e : option error) :
  spentOutputs w = ∅ →
  FundTransaction order w id amount = Returned (w1, None) →
  appendedInputs w w1 id new →
  enumerates order' (spentOutputs w1) →
  Reset order' w1 = Returned (w2, e) →
  ∃ w3, FundTransaction order w2 id amount = Returned (w3, None) ∧
        appendedInputs w2 w3 id new ∧
        appendedInputs w w3 id (new ++ new).
Proof.
  intros Hfree Hcall (ot0 & ot1 & Hid0 & Hid1 & Happ) Henum Hreset.
  apply FundTransaction_Returned_nil in Hcall
    as (ot & total & new' & Hnz & Hid & Hsel & Hle & Hw1).
  rewrite Hid in Hid0. injection Hid0 as <-.
  assert (Hnew : new' = new).
  { rewrite Hw1 in Hid1. simpl in Hid1. rewrite lookup_insert_eq in Hid1.
    injection Hid1 as <-. simpl in Happ. by apply app_inv_head in Happ. }
  subst new'.
  unfold Reset in Hreset.
  destruct (forEach releaseOne order' w1) as [w2'|] eqn:E; [|discriminate].
  simpl in Hreset. injection Hreset as <- <-.
  apply forEach_releaseOne_Returned in E
    as (Hsp & _ & Hout & Htx & _ & _ & Hsc).
  assert (Hnone : spentOutputs w2' = ∅).
  { rewrite Hsp. apply set_eq. intros x. unfold enumerates in Henum.
    rewrite elem_of_difference, elem_of_list_to_set, Henum, elem_of_elements.
    set_solver. }
  assert (Hsel2 : selectInputs w2' amount order 0 [] = Returned (total, new)).
  { rewrite <- Hsel. apply selectInputs_ext.
    - congruence.
    - rewrite Hout, Hw1. done.
    - rewrite Hsc, Hw1. done. }
  assert (Hid2 : transactions w2' !! id = Some ot1).
  { by rewrite Htx. }
  eexists. split.
  - unfold FundTransaction. rewrite decide_False by done.
    rewrite Hid2, Hsel2. simpl. rewrite decide_False by lia. reflexivity.
  - split.
    + eexists ot1, _. split; [done|]. split; [apply lookup_insert_eq|]. done.
    + eexists ot, _. split; [done|]. split; [apply lookup_insert_eq|].
      simpl. by rewrite Happ, app_assoc.
Qed.

End FundCriterion.

(** ** Blocks that do not concern the wallet *)

Lemma forEach_Forall {A S : Type} (Q : A -> Prop) (P : S -> Prop)
    (body : S -> A -> result S) (l : list A) (s : S) :
  (∀ s a, Q a → P s → ∃ s', body s a = Returned s' ∧ P s') →
  Forall Q l → P s → ∃ s', forEach body l s = Returned s' ∧ P s'.
Proof.
  intros Hbody Hl. revert s. induction Hl as [|a l Ha _ IH]; intros s Hs.
  - exists s. done.
  - destruct (Hbody s a Ha Hs) as (s1 & E & Hs1).
    rewrite forEach_cons, E, bind_Returned. by apply IH.
Qed.

Lemma Forall_rev {A : Type} (Q : A -> Prop) (l : list A) :
  Forall Q l → Forall Q (rev l).
Proof.
  induction 1 as [|a l Ha _ IH]; simpl; [done|].
  apply Forall_app. split; [done|]. by constructor.
Qed.

Lemma Forall_imap_pair {A : Type} (Q : A -> Prop) (l : list A) :
  Forall Q l → Forall (λ io : nat * A, Q io.2) (imap pair l).
Proof.
  intros Hl. apply Forall_forall. intros [i a] Hin.
  apply list_elem_of_lookup in Hin as [j Hj].
  rewrite list_lookup_imap in Hj.
  destruct (l !! j) as [a'|] eqn:Hlj; simpl in Hj; [|discriminate].
  injection Hj as <- <-. simpl.
  rewrite Forall_forall in Hl. apply Hl. by apply list_elem_of_lookup_2 in Hlj.
Qed.

Section Foreign.

Context `{C : Consensus}.
Variable ca : CoinAddress.

Lemma rewindTransaction_foreign (w s : Wallet) (t : Transaction) :
  foreignTransaction ca t → shrunk w s →
  ∃ s', rewindTransaction ca t s = Returned s' ∧ shrunk w s'.
Proof.
  intros [_ Hin] Hs. unfold rewindTransaction.
  eapply (forEach_Forall _ (shrunk w)); [|exact Hin|].
  - intros s0 a Ha Hs0. simpl in Ha. unfold readdInput.
    rewrite decide_False by done. eauto.
  - unfold removeCreated. apply (fold_left_inv (shrunk w)); [|done].
    intros s0 j (Hb & Ho & Hsub). repeat split; simpl; try done. set_solver.
Qed.

Lemma applyTransaction_foreign (w s : Wallet) (t : Transaction) :
  foreignTransaction ca t → shrunk w s →
  ∃ s', applyTransaction ca s t = Returned s' ∧ shrunk w s'.
Proof.
  intros [Hout _] Hs.
  assert (Hrm : shrunk w (removeConsumed t s)).
  { unfold removeConsumed. apply (fold_left_inv (shrunk w)); [|done].
    intros s0 j (Hb & Ho & Hsub). repeat split; simpl; try done. set_solver. }
  unfold applyTransaction. destruct (last (Outputs t)) as [shared|]; [|eauto].
  eapply (forEach_Forall _ (shrunk w));
    [|exact (Forall_imap_pair _ _ Hout)|exact Hrm].
  intros s0 [i o] Ha Hs0. simpl in Ha. unfold addCreated.
  rewrite decide_False by done. eauto.
Qed.

(** X11.  Blocks that do not concern the wallet cannot make [Update] panic
    and cannot raise the balance: when no output of the rewound and applied
    blocks pays [ca] and no input was spent under conditions hashing to [ca],
    [Update] returns, the balance and the records are as before, and the
    owned outputs are among those owned before. *)
Theorem Update_foreign_blocks (w : Wallet) (rewound applied : list Block) :
  Forall (foreignBlock ca) rewound →
  Forall (foreignBlock ca) applied →
  ∃ w', Update ca w rewound applied = Returned (w', None) ∧
        balance w' = balance w ∧
        outputs w' = outputs w ∧
        ownedOutputs w' ⊆ ownedOutputs w.
Proof.
  intros Hrew Happ.
  assert (H0 : shrunk w w) by (by repeat split).
  destruct (forEach_Forall (foreignBlock ca) (shrunk w) (rewindBlock ca)
              rewound w) as (w1 & E1 & Hw1); [|done|done|].
  { intros s b Hb Hs. unfold rewindBlock.
    rewrite rewindFrom_rev by lia. rewrite firstn_all.
    apply (forEach_Forall (foreignTransaction ca) (shrunk w)); [|by apply Forall_rev|done].
    intros s0 t Ht Hs0. by apply rewindTransaction_foreign. }
  destruct (forEach_Forall (foreignBlock ca) (shrunk w) (applyBlock ca)
              applied w1) as (w2 & E2 & Hw2); [|done|done|].
  { intros s b Hb Hs. unfold applyBlock.
    apply (forEach_Forall (foreignTransaction ca) (shrunk w)); [|done|done].
    intros s0 t Ht Hs0. by apply applyTransaction_foreign. }
  exists w2. unfold Update, rewindBlocks, applyBlocks.
  rewrite E1. simpl. rewrite E2. simpl. by destruct Hw2 as (? & ? & ?).
Qed.

End Foreign.

(** ** What applying a transaction credits and records *)

Section Apply.

Context `{C : Consensus}.
Variable ca : CoinAddress.

(** The loop of lines 94-100 over any list of indexed outputs. *)
Lemma forEach_addCreated (t : Transaction) (shared : Output)
    (ios : list (nat * Output)) (w w' : Wallet) :
  forEach (addCreated ca t shared) ios w = Returned w' →
  balance w'
  = balance w + sumN (Value <$> filter (λ o, ca = SpendHash o) (snd <$> ios)) ∧
  ownedOutputs w ⊆ ownedOutputs w' ∧
  (∀ id, outputs w !! id = Some {| output := Some shared |} →
         outputs w' !! id = Some {| output := Some shared |}) ∧
  (∀ i o, (i, o) ∈ ios → ca = SpendHash o →
          Transaction_OutputID t i ∈ ownedOutputs w' ∧
          outputs w' !! Transaction_OutputID t i
          = Some {| output := Some shared |}).
Proof.
  revert w. induction ios as [|[i o] ios IH]; intros w.
  - simpl. intros [= <-]. split; [lia|]. split; [done|]. split; [done|].
    intros i o Hin. by apply not_elem_of_nil in Hin.
  - rewrite forEach_cons.
    destruct (addCreated ca t shared w (i, o)) as [w1|] eqn:E; [|discriminate].
    rewrite bind_Returned. intros Hrest.
    apply IH in Hrest as (Hbal & Hown & Hkeep & Hnew).
    rewrite fmap_cons, filter_cons. simpl.
    unfold addCreated in E.
    destruct (decide (ca = SpendHash o)) as [Hpay|Hpay].
    + simpl in E.
      destruct (outputs w !! Transaction_OutputID t i) as [r|] eqn:Hrec;
        [|discriminate].
      injection E as <-. simpl in *.
      split; [rewrite Hbal; symmetry; apply N.add_assoc|].
      split; [set_solver|]. split.
      * intros id Hid. apply Hkeep.
        destruct (decide (Transaction_OutputID t i = id)) as [<-|Hne].
        -- apply lookup_insert_eq.
        -- by rewrite lookup_insert_ne.
      * intros i' o' Hin Hpay'. apply elem_of_cons in Hin as [[= -> ->]|Hin].
        -- split; [set_solver|]. apply Hkeep, lookup_insert_eq.
        -- by apply (Hnew i' o').
    + injection E as <-.
      split; [done|]. split; [done|]. split; [done|].
      intros i' o' Hin Hpay'. apply elem_of_cons in Hin as [[= -> ->]|Hin].
      * done.
      * by apply (Hnew i' o').
Qed.

Lemma snd_imap_pair {A : Type} (l : list A) : snd <$> imap pair l = l.
Proof.
  apply list_eq. intros i. rewrite list_lookup_fmap, list_lookup_imap.
  by destruct (l !! i).
Qed.

Lemma elem_of_imap_pair {A : Type} (l : list A) (i : nat) (a : A) :
  l !! i = Some a → (i, a) ∈ imap pair l.
Proof.
  intros Hi. apply list_elem_of_lookup. exists i.
  by rewrite list_lookup_imap, Hi.
Qed.

(** X12.  When applying a transaction returns, the balance has grown by
    exactly the values of the transaction's outputs that pay [ca], and each of
    those outputs is owned; deleting the consumed outputs took nothing from
    the balance. *)
Theorem applyTransaction_credits (w : Wallet) (t : Transaction) (w' : Wallet) :
  applyTransaction ca w t = Returned w' →
  balance w' = balance w + credited ca t ∧
  ∀ i o, Outputs t !! i = Some o → ca = SpendHash o →
         Transaction_OutputID t i ∈ ownedOutputs w'.
Proof.
  unfold applyTransaction, credited.
  destruct (last (Outputs t)) as [shared|] eqn:Hlast.
  - intros Hloop. apply forEach_addCreated in Hloop as (Hbal & _ & _ & Hnew).
    rewrite snd_imap_pair, removeConsumed_balance in Hbal. split; [done|].
    intros i o Hi Hpay. by apply (Hnew i o); [apply elem_of_imap_pair|].
  - intros [= <-]. apply last_None in Hlast. rewrite Hlast. simpl.
    rewrite removeConsumed_balance. split; [lia|].
    intros i o Hi. by rewrite lookup_nil in Hi.
Qed.

(** X13.  The record [Update] keeps for a created output is not that
    output: line 98 stores the address of the loop variable, so after a
    transaction is applied the record of each of its outputs that pay [ca]
    holds the transaction's last output, and the value on record is the last
    output's value, whatever was credited. *)
Theorem applyTransaction_records_last_output (w : Wallet) (t : Transaction)
    (w' : Wallet) (i : nat) (o : Output) :
  applyTransaction ca w t = Returned w' →
  Outputs t !! i = Some o → ca = SpendHash o →
  ∃ shared, last (Outputs t) = Some shared ∧
            outputs w' !! Transaction_OutputID t i
            = Some {| output := Some shared |} ∧
            recordedValue w' (Transaction_OutputID t i) = Value shared.
Proof.
  unfold applyTransaction. intros Happly Hi Hpay.
  destruct (last (Outputs t)) as [shared|] eqn:Hlast.
  - apply forEach_addCreated in Happly as (_ & _ & _ & Hnew).
    destruct (Hnew i o) as [_ Hrec]; [by apply elem_of_imap_pair|done|].
    exists shared. split; [done|]. split; [done|].
    unfold recordedValue. by rewrite Hrec.
  - apply last_None in Hlast. by rewrite Hlast, lookup_nil in Hi.
Qed.

End Apply.

(** ** What Update does not read *)

Lemma fold_left_commute {A S : Type} (g : S -> S) (f : S -> A -> S)
    (l : list A) (s : S) :
  (∀ s a, f (g s) a = g (f s a)) → fold_left f l (g s) = g (fold_left f l s).
Proof.
  intros Hf. revert s. induction l as [|a l IH]; intros s; simpl; [done|].
  by rewrite Hf, IH.
Qed.

Lemma forEach_commute {A S : Type} (g : S -> S) (body : S -> A -> result S)
    (l : list A) (s : S) :
  (∀ s a, body (g s) a = g <$> body s a) →
  forEach body l (g s) = g <$> forEach body l s.
Proof.
  intros Hb. revert s. induction l as [|a l IH]; intros s; simpl; [done|].
  rewrite Hb. destruct (body s a) as [s1|]; simpl; [apply IH|done].
Qed.

Section UpdateCommute.

Context `{C : Consensus}.
Variable ca : CoinAddress.

(** A change [g] of the wallet that leaves the balance, the owned outputs
    and the records alone, and that the writes of [Update] do not undo. *)
Variable g : Wallet -> Wallet.
Hypothesis g_balance : ∀ w, balance (g w) = balance w.
Hypothesis g_ownedOutputs : ∀ w, ownedOutputs (g w) = ownedOutputs w.
Hypothesis g_outputs : ∀ w, outputs (g w) = outputs w.
Hypothesis g_set_balance : ∀ b w, g (set_balance b w) = set_balance b (g w).
Hypothesis g_set_ownedOutputs :
  ∀ s w, g (set_ownedOutputs s w) = set_ownedOutputs s (g w).
Hypothesis g_set_outputs : ∀ m w, g (set_outputs m w) = set_outputs m (g w).

Lemma rewindTransaction_commute (t : Transaction) (w : Wallet) :
  rewindTransaction ca t (g w) = g <$> rewindTransaction ca t w.
Proof.
  unfold rewindTransaction, removeCreated.
  rewrite fold_left_commute.
  2:{ intros s j. by rewrite g_ownedOutputs, g_set_ownedOutputs. }
  apply forEach_commute. intros s a. unfold readdInput, outputValue.
  case_decide; [|done]. rewrite g_outputs.
  destruct (outputs s !! Input_OutputID a) as [[[o|]]|]; simpl; try done.
  by rewrite g_balance, g_ownedOutputs, g_set_ownedOutputs, g_set_balance.
Qed.

Lemma rewindFrom_commute (txs : list Transaction) (n : nat) (w : Wallet) :
  rewindFrom ca txs n (g w) = g <$> rewindFrom ca txs n w.
Proof.
  revert w. induction n as [|i IH]; intros w; simpl; [done|].
  destruct (txs !! i) as [t|]; [|done].
  rewrite rewindTransaction_commute.
  destruct (rewindTransaction ca t w) as [w1|]; simpl; [apply IH|done].
Qed.

Lemma applyTransaction_commute (t : Transaction) (w : Wallet) :
  applyTransaction ca (g w) t = g <$> applyTransaction ca w t.
Proof.
  assert (Hrm : removeConsumed t (g w) = g (removeConsumed t w)).
  { unfold removeConsumed. apply fold_left_commute.
    intros s j. by rewrite g_ownedOutputs, g_set_ownedOutputs. }
  unfold applyTransaction. rewrite Hrm.
  destruct (last (Outputs t)) as [shared|]; [|done].
  apply forEach_commute. intros s [i o]. unfold addCreated.
  case_decide; [|done]. simpl. rewrite g_outputs, g_ownedOutputs, g_balance.
  destruct (outputs s !! Transaction_OutputID t i); [|done]. simpl.
  by rewrite g_set_balance, g_set_outputs, g_set_ownedOutputs.
Qed.

Lemma Update_commute (w : Wallet) (rewound applied : list Block) :
  Update ca (g w) rewound applied
  = (λ r, (g r.1, r.2)) <$> Update ca w rewound applied.
Proof.
  unfold Update, rewindBlocks, applyBlocks.
  rewrite (forEach_commute g (rewindBlock ca)).
  2:{ intros s b. apply rewindFrom_commute. }
  destruct (forEach (rewindBlock ca) rewound w) as [w1|]; simpl; [|done].
  rewrite (forEach_commute g (applyBlock ca)).
  2:{ intros s b. unfold applyBlock. apply forEach_commute.
      intros s0 t. apply applyTransaction_commute. }
  by destruct (forEach (applyBlock ca) applied w1).
Qed.

End UpdateCommute.

Section Unread.

Context `{C : Consensus}.
Variable ca : CoinAddress.

(** X14.  [Update] recognises the wallet's outputs by the one address [ca]
    and never consults the addresses [CoinAddress] has issued: issuing an
    address before an [Update] changes neither whether the [Update] returns
    nor what it does to the balance, the owned outputs and the records. *)
Theorem Update_ignores_issued_addresses (w : Wallet)
    (keys : option (SecretKey * PublicKey)) (w1 : Wallet)
    (r : CoinAddress * option error) (rewound applied : list Block) :
  Wallet_CoinAddress keys w = Returned (w1, r) →
  Update ca w1 rewound applied
  = (λ x, (set_spendableAddresses (spendableAddresses w1) x.1, x.2))
      <$> Update ca w rewound applied.
Proof.
  intros Hissue.
  assert (Hw1 : w1 = set_spendableAddresses (spendableAddresses w1) w).
  { revert Hissue. unfold Wallet_CoinAddress.
    destruct keys as [[sk pk]|]; intros [= <- _]; [done|]. by destruct w. }
  rewrite Hw1 at 1.
  by apply (Update_commute ca (set_spendableAddresses (spendableAddresses w1))).
Qed.

(** X15.  [Update] does not look at the reservations either: with other
    spent outputs the same call returns or panics alike and does the same to
    the balance, the owned outputs and the records.  A reserved output that a
    block consumes is deleted like a free one, and its reservation stays. *)
Theorem Update_ignores_reservations (w : Wallet) (spent : gset OutputID)
    (rewound applied : list Block) :
  Update ca (set_spentOutputs spent w) rewound applied
  = (λ x, (set_spentOutputs spent x.1, x.2)) <$> Update ca w rewound applied.
Proof. by apply (Update_commute ca (set_spentOutputs spent)). Qed.

End Unread.

(** ** What rewinding a transaction credits *)

Section RewindCredit.

Context `{C : Consensus}.
Variable ca : CoinAddress.

Lemma removeCreated_outputs (t : Transaction) (w : Wallet) :
  outputs (removeCreated t w) = outputs w.
Proof.
  unfold removeCreated.
  by apply (fold_left_inv (λ w', outputs w' = outputs w)).
Qed.

Lemma forEach_readdInput (ins : list Input) (w w' : Wallet) :
  forEach (readdInput ca) ins w = Returned w' →
  outputs w' = outputs w ∧
  balance w'
  = balance w
    + valueOf w
        (Input_OutputID
           <$> filter (λ i, ca = SpendConditions_CoinAddress
                                   (Input_SpendConditions i)) ins) ∧
  ownedOutputs w ⊆ ownedOutputs w' ∧
  (∀ i, i ∈ ins →
        ca = SpendConditions_CoinAddress (Input_SpendConditions i) →
        Input_OutputID i ∈ ownedOutputs w').
Proof.
  revert w. induction ins as [|i ins IH]; intros w.
  - simpl. intros [= <-]. split; [done|]. split; [|split; [done|]].
    + unfold valueOf. simpl. lia.
    + intros i Hin. by apply not_elem_of_nil in Hin.
  - rewrite forEach_cons.
    destruct (readdInput ca w i) as [w1|] eqn:E; [|discriminate].
    rewrite bind_Returned. intros Hrest.
    apply IH in Hrest as (Hout & Hbal & Hown & Hnew).
    rewrite filter_cons. unfold readdInput in E.
    destruct (decide (ca = SpendConditions_CoinAddress (Input_SpendConditions i)))
      as [Hours|Hours].
    + destruct (outputValue w (Input_OutputID i)) as [v|] eqn:Hv;
        [|discriminate].
      apply outputValue_Returned in Hv. subst v. injection E as <-.
      simpl in *. split; [done|]. split; [|split; [set_solver|]].
      * rewrite Hbal, valueOf_cons, N.add_assoc. reflexivity.
      * intros i' Hin Hours'. apply elem_of_cons in Hin as [->|Hin].
        -- set_solver.
        -- by apply Hnew.
    + injection E as <-. split; [done|]. split; [done|]. split; [done|].
      intros i' Hin Hours'. apply elem_of_cons in Hin as [->|Hin]; [done|].
      by apply Hnew.
Qed.

(** X17.  When rewinding a transaction returns, the balance has grown by the
    recorded value of every input that was spent under conditions hashing to
    [ca], and each of those inputs is owned again; the outputs the
    transaction had created are deleted without anything taken from the
    balance, and the records are as before. *)
Theorem rewindTransaction_credits (t : Transaction) (w w' : Wallet) :
  rewindTransaction ca t w = Returned w' →
  outputs w' = outputs w ∧
  balance w'
  = balance w
    + valueOf w
        (Input_OutputID
           <$> filter (λ i, ca = SpendConditions_CoinAddress
                                   (Input_SpendConditions i)) (Inputs t)) ∧
  (∀ i, i ∈ Inputs t →
        ca = SpendConditions_CoinAddress (Input_SpendConditions i) →
        Input_OutputID i ∈ ownedOutputs w').
Proof.
  unfold rewindTransaction. intros Hloop.
  apply forEach_readdInput in Hloop as (Hout & Hbal & _ & Hnew).
  rewrite removeCreated_outputs in Hout.
  rewrite removeCreated_balance in Hbal. split; [done|]. split; [|done].
  rewrite Hbal. unfold valueOf, recordedValue.
  by rewrite removeCreated_outputs.
Qed.

End RewindCredit.

(** ** The extras at concrete calls *)

Module Demo2Facts.

Lemma pays :
  Update (C := Demo.consensus) Demo.ca Demo.fresh [] [Demo.payBlock]
  = Returned (Demo2.afterPay, None).
Proof. vm_compute. reflexivity. Qed.

Lemma addsFee :
  step (C := Demo.consensus) Demo.ca Demo.after10 (CallAddMinerFee "0" 1)
  = Returned Demo.withFee.
Proof. vm_compute. reflexivity. Qed.

Lemma paysAndSpends :
  run (C := Demo.consensus) Demo.ca
    [CallUpdate [] [Demo.payBlock]; CallUpdate [] [Demo.spendBlock]]
    (New {[ 2000 := {| output := None |} ]} Demo.ours)
  = Returned Demo2.afterSpend.
Proof. vm_compute. reflexivity. Qed.

Lemma yields_spent : enumerates [1; 2] (spentOutputs Demo.after12).
Proof. unfold enumerates. vm_compute. apply perm_swap. Qed.

Lemma resets : Reset [1; 2] Demo.after12 = Returned (Demo2.released, None).
Proof. vm_compute. reflexivity. Qed.

Lemma free : spentOutputs Demo.funded = ∅.
Proof. reflexivity. Qed.

Lemma appended12 :
  appendedInputs Demo.funded Demo.after12 "0"
    [newInput Demo.funded 1; newInput Demo.funded 2].
Proof.
  exists {| transaction := Demo.emptyTransaction; inputs := [] |},
    {| transaction :=
         {| Inputs := [newInput Demo.funded 1; newInput Demo.funded 2];
            MinerFees := [];
            Outputs := [{| Value := 3; SpendHash := 7 |}] |};
       inputs := [2; 2] |}.
  repeat split; vm_compute; reflexivity.
Qed.

Lemma recorded_funded (o : OutputID) :
  o ∈ ownedOutputs Demo.funded → o ∉ spentOutputs Demo.funded →
  recorded Demo.funded o.
Proof.
  intros Ho _.
  assert (Hid : o = 1 ∨ o = 2).
  { revert Ho. unfold Demo.funded. simpl. set_solver. }
  destruct Hid as [-> | ->]; eexists; vm_compute; reflexivity.
Qed.

Lemma session0 : is_Some (transactions Demo.funded !! "0").
Proof. eexists. vm_compute. reflexivity. Qed.

Lemma strangers_foreign :
  Forall (foreignBlock (C := Demo.consensus) Demo.ca) [Demo2.strangersBlock].
Proof.
  repeat constructor; simpl; vm_compute; discriminate.
Qed.

Lemma appliesMixed :
  applyTransaction (C := Demo.consensus) Demo.ca Demo2.expecting Demo2.mixed
  = Returned Demo2.afterMixed.
Proof. vm_compute. reflexivity. Qed.

Lemma issues :
  Wallet_CoinAddress (C := Demo.consensus) (Some (1, 5)) Demo.fresh
  = Returned (Demo2.issued, (1005, None)).
Proof. vm_compute. reflexivity. Qed.

Lemma undoes :
  rewindTransaction (C := Demo.consensus) Demo.ca Demo.spend Demo2.afterSpend
  = Returned Demo2.afterUndo.
Proof. vm_compute. reflexivity. Qed.

End Demo2Facts.

Lemma Update_writes_ledger_only_witness :
  spentOutputs Demo2.afterPay = spentOutputs Demo.fresh ∧
  transactions Demo2.afterPay = transactions Demo.fresh ∧
  spendableAddresses Demo2.afterPay = spendableAddresses Demo.fresh ∧
  transactionCounter Demo2.afterPay = transactionCounter Demo.fresh ∧
  spendConditions Demo2.afterPay = spendConditions Demo.fresh ∧
  (None : option error) = None.
Proof.
  exact (Update_writes_ledger_only (C := Demo.consensus) Demo.ca Demo.fresh
           [] [Demo.payBlock] Demo2.afterPay None Demo2Facts.pays).
Defined.

Lemma FundTransaction_keeps_balance_witness :
  balance Demo.after12 = balance Demo.funded ∧
  ownedOutputs Demo.after12 = ownedOutputs Demo.funded ∧
  outputs Demo.after12 = outputs Demo.funded ∧
  spendableAddresses Demo.after12 = spendableAddresses Demo.funded ∧
  transactionCounter Demo.after12 = transactionCounter Demo.funded ∧
  spendConditions Demo.after12 = spendConditions Demo.funded.
Proof.
  exact (FundTransaction_keeps_balance (C := Demo.consensus) [1; 2]
           Demo.funded "0" 12 Demo.after12 None DemoFacts.fund12).
Defined.

Lemma step_keeps_session_ids_witness :
  dom (transactions Demo.withFee) = dom (transactions Demo.after10).
Proof.
  exact (step_keeps_session_ids (C := Demo.consensus) Demo.ca Demo.after10
           (CallAddMinerFee "0" 1) Demo.withFee Demo2Facts.addsFee).
Defined.

Lemma fresh_wallet_never_funds_witness :
  transactions Demo2.afterSpend = ∅ ∧
  spentOutputs Demo2.afterSpend = ∅ ∧
  (∀ order id amount,
     FundTransaction (C := Demo.consensus) order Demo2.afterSpend id amount
     = Returned (Demo2.afterSpend,
                 Some (if decide (amount = 0) then ErrFundZero
                       else ErrNoTransactionOfId))) ∧
  (∀ id fee, AddMinerFee Demo2.afterSpend id fee
             = Returned (Demo2.afterSpend, Some ErrNoTransactionFound)) ∧
  (∀ id amount dest,
     AddOutput Demo2.afterSpend id amount dest
     = Returned (Demo2.afterSpend, Some ErrNoTransactionFound)) ∧
  (∀ t, RegisterTransaction Demo2.afterSpend t = Panicked).
Proof.
  exact (fresh_wallet_never_funds (C := Demo.consensus) Demo.ca
           [CallUpdate [] [Demo.payBlock]; CallUpdate [] [Demo.spendBlock]]
           {[ 2000 := {| output := None |} ]} Demo.ours Demo2.afterSpend
           Demo2Facts.paysAndSpends).
Defined.

Lemma Reset_releases_all_witness :
  (None : option error) = None ∧
  spentOutputs Demo2.released = ∅ ∧
  ownedOutputs Demo2.released = ownedOutputs Demo.after12 ∧
  outputs Demo2.released = outputs Demo.after12 ∧
  transactions Demo2.released = transactions Demo.after12 ∧
  (∀ order', candidates Demo2.released order' = order').
Proof.
  exact (Reset_releases_all [1; 2] Demo.after12 Demo2.released None
           Demo2Facts.yields_spent Demo2Facts.resets).
Defined.

Lemma FundTransaction_succeeds_iff_covered_witness :
  let free :=
    valueOf Demo.funded
      (elements (ownedOutputs Demo.funded ∖ spentOutputs Demo.funded)) in
  if decide (12 ≤ free)
  then ∃ w', FundTransaction (C := Demo.consensus) [1; 2] Demo.funded "0" 12
             = Returned (w', None)
  else FundTransaction (C := Demo.consensus) [1; 2] Demo.funded "0" 12
       = Returned (Demo.funded, Some (ErrInsufficientFunds 12 free)).
Proof.
  refine (FundTransaction_succeeds_iff_covered (C := Demo.consensus) [1; 2]
            Demo.funded "0" 12 DemoFacts.yields_1_2 Demo2Facts.recorded_funded
            _ Demo2Facts.session0).
  discriminate.
Defined.

Lemma FundTransaction_records_input_count_witness :
  ∃ ot ot' new,
    transactions Demo.funded !! "0" = Some ot ∧
    transactions Demo.after12 !! "0" = Some ot' ∧
    Inputs (transaction ot') = Inputs (transaction ot) ++ new ∧
    inputs ot'
    = inputs ot ++
      replicate (length new) (N.of_nat (length (Inputs (transaction ot')))) ∧
    Inputs (transaction ot') !! length (Inputs (transaction ot')) = None.
Proof.
  exact (FundTransaction_records_input_count (C := Demo.consensus) [1; 2]
           Demo.funded "0" 12 Demo.after12 DemoFacts.fund12).
Defined.

Lemma FundTransaction_again_after_Reset_witness :
  ∃ w3, FundTransaction (C := Demo.consensus) [1; 2] Demo2.released "0" 12
        = Returned (w3, None) ∧
        appendedInputs Demo2.released w3 "0"
          [newInput Demo.funded 1; newInput Demo.funded 2] ∧
        appendedInputs Demo.funded w3 "0"
          ([newInput Demo.funded 1; newInput Demo.funded 2]
           ++ [newInput Demo.funded 1; newInput Demo.funded 2]).
Proof.
  exact (FundTransaction_again_after_Reset (C := Demo.consensus) [1; 2]
           Demo.funded "0" 12 Demo.after12
           [newInput Demo.funded 1; newInput Demo.funded 2] [1; 2]
           Demo2.released None Demo2Facts.free DemoFacts.fund12
           Demo2Facts.appended12 Demo2Facts.yields_spent Demo2Facts.resets).
Defined.

Lemma Update_foreign_blocks_witness :
  ∃ w', Update (C := Demo.consensus) Demo.ca Demo.funded []
          [Demo2.strangersBlock] = Returned (w', None) ∧
        balance w' = balance Demo.funded ∧
        outputs w' = outputs Demo.funded ∧
        ownedOutputs w' ⊆ ownedOutputs Demo.funded.
Proof.
  exact (Update_foreign_blocks (C := Demo.consensus) Demo.ca Demo.funded []
           [Demo2.strangersBlock] (Forall_nil_2 _) Demo2Facts.strangers_foreign).
Defined.

Lemma applyTransaction_credits_witness :
  balance Demo2.afterMixed
  = balance Demo2.expecting + credited Demo.ca Demo2.mixed ∧
  ∀ i o, Outputs Demo2.mixed !! i = Some o → Demo.ca = SpendHash o →
         Transaction_OutputID (Consensus := Demo.consensus) Demo2.mixed i
         ∈ ownedOutputs Demo2.afterMixed.
Proof.
  exact (applyTransaction_credits (C := Demo.consensus) Demo.ca
           Demo2.expecting Demo2.mixed Demo2.afterMixed Demo2Facts.appliesMixed).
Defined.

Lemma applyTransaction_records_last_output_witness :
  ∃ shared, last (Outputs Demo2.mixed) = Some shared ∧
            outputs Demo2.afterMixed
              !! Transaction_OutputID (Consensus := Demo.consensus) Demo2.mixed 0
            = Some {| output := Some shared |} ∧
            recordedValue Demo2.afterMixed
              (Transaction_OutputID (Consensus := Demo.consensus) Demo2.mixed 0)
            = Value shared.
Proof.
  exact (applyTransaction_records_last_output (C := Demo.consensus) Demo.ca
           Demo2.expecting Demo2.mixed Demo2.afterMixed 0
           {| Value := 10; SpendHash := 7 |} Demo2Facts.appliesMixed
           eq_refl eq_refl).
Defined.

Lemma Update_ignores_issued_addresses_witness :
  Update (C := Demo.consensus) Demo.ca Demo2.issued [] [Demo.payBlock]
  = (λ x, (set_spendableAddresses (spendableAddresses Demo2.issued) x.1, x.2))
      <$> Update (C := Demo.consensus) Demo.ca Demo.fresh [] [Demo.payBlock].
Proof.
  exact (Update_ignores_issued_addresses (C := Demo.consensus) Demo.ca
           Demo.fresh (Some (1, 5)) Demo2.issued (1005, None) []
           [Demo.payBlock] Demo2Facts.issues).
Defined.

Lemma run_balance_witness : balance Demo.fresh ≤ balance Demo2.afterSpend.
Proof.
  exact (run_balance (C := Demo.consensus) Demo.ca
           [CallUpdate [] [Demo.payBlock]; CallUpdate [] [Demo.spendBlock]]
           Demo.fresh Demo2.afterSpend Demo2Facts.paysAndSpends).
Defined.

Lemma rewindTransaction_credits_witness :
  outputs Demo2.afterUndo = outputs Demo2.afterSpend ∧
  balance Demo2.afterUndo
  = balance Demo2.afterSpend
    + valueOf Demo2.afterSpend
        (Input_OutputID
           <$> filter (λ i, Demo.ca
                            = SpendConditions_CoinAddress
                                (Consensus := Demo.consensus)
                                (Input_SpendConditions i))
                 (Inputs Demo.spend)) ∧
  (∀ i, i ∈ Inputs Demo.spend →
        Demo.ca = SpendConditions_CoinAddress (Consensus := Demo.consensus)
                    (Input_SpendConditions i) →
        Input_OutputID i ∈ ownedOutputs Demo2.afterUndo).
Proof.
  exact (rewindTransaction_credits (C := Demo.consensus) Demo.ca Demo.spend
           Demo2.afterSpend Demo2.afterUndo Demo2Facts.undoes).
Defined.

(** ** The ledger of the wallet New returns *)

Section FromNew.

Context `{C : Consensus}.
Variable ca : CoinAddress.



End FromNew.

